(** * Scheduling core of the workflow execution engine

    Shallow embedding of
    - [inference/core/workflows/execution_engine/executor/flow_coordinator.py]
      (step-flow graph construction, layering, the parallel step execution
      coordinator), and
    - [.../executor/execution_data_manager/branching_manager.py]
      (the registry of branch masks),
    together with the properties the specification states about them. *)

From stdpp Require Import gmap strings list fin_maps relations.
From Stdlib Require Import Lia.

Open Scope string_scope.
Set Warnings "-clear-no-such-hyp".

(** ** The fragment of [networkx.DiGraph] used by the engine

    A directed graph keeps its nodes in insertion order, each with its
    attribute data, and its edges in insertion order.  Adding a node or an
    edge that is already present changes nothing (we only ever add nodes with
    default attributes). *)

Record DiGraph (A : Type) := mkDiGraph {
  nodes : list (string * A);
  edges : list (string * string)
}.
Arguments mkDiGraph {A} _ _.
Arguments nodes {A} _.
Arguments edges {A} _.

Section digraph.
Context {A : Type}.

Definition node_names (g : DiGraph A) : list string := (nodes g).*1.

Definition has_edge (g : DiGraph A) (u v : string) : Prop := (u, v) ∈ edges g.

Global Instance has_edge_dec g u v : Decision (has_edge g u v).
Proof. unfold has_edge. apply _. Defined.

(** [G.predecessors(v)]: sources of the edges into [v], in insertion order. *)
Definition predecessors (g : DiGraph A) (v : string) : list string :=
  (filter (λ e : string * string, e.2 = v) (edges g)).*1.

(** [G.successors(v)]: targets of the edges out of [v], in insertion order. *)
Definition successors (g : DiGraph A) (v : string) : list string :=
  (filter (λ e : string * string, e.1 = v) (edges g)).*2.

(** [G.add_node(n)] with default attributes [a]. *)
Definition add_node (a : A) (g : DiGraph A) (n : string) : DiGraph A :=
  if bool_decide (n ∈ node_names g) then g
  else mkDiGraph (nodes g ++ [(n, a)]) (edges g).

(** [G.add_edge(u, v)]: both endpoints become nodes. *)
Definition add_edge (a : A) (g : DiGraph A) (u v : string) : DiGraph A :=
  let g' := add_node a (add_node a g u) v in
  if bool_decide ((u, v) ∈ edges g') then g'
  else mkDiGraph (nodes g') (edges g' ++ [(u, v)]).

(** A graph is acyclic when no node reaches itself along one or more edges. *)
Definition acyclic (g : DiGraph A) : Prop := ∀ v, ¬ tc (has_edge g) v v.
End digraph.

(** ** Execution graph

    Modelled from the spec: the node categories of the compiler
    ([NodeCategory], declared in [compiler/entities.py], which is not part of
    the sources at hand).  The spec tags every node of the execution graph as
    Step or Data. *)
Inductive NodeCategory := STEP_NODE | DATA_NODE.

Global Instance NodeCategory_eq_dec : EqDecision NodeCategory.
Proof. solve_decision. Defined.

(** Modelled from the spec: [get_nodes_of_specific_category]
    ([compiler/utils.py], not part of the sources at hand) enumerates the
    nodes of a given category.  Python returns them as a set; we enumerate
    them in node order. *)
Definition get_nodes_of_specific_category
    (execution_graph : DiGraph NodeCategory) (category : NodeCategory) : list string :=
  (filter (λ nd : string * NodeCategory, nd.2 = category) (nodes execution_graph)).*1.

Definition is_step (g : DiGraph NodeCategory) (s : string) : Prop :=
  s ∈ get_nodes_of_specific_category g STEP_NODE.

Global Instance is_step_dec g s : Decision (is_step g s).
Proof. unfold is_step. apply _. Defined.

(** ** [construct_steps_flow_graph] *)

(** The loop over [execution_graph.predecessors(step_node)]; the state is the
    graph under construction and the flag [has_predecessors]. *)
Definition add_predecessor_edges
    (step_nodes : list string) (super_start_node step_node : string)
    (acc : DiGraph unit * bool) (preds : list string) : DiGraph unit * bool :=
  foldl (λ (st : DiGraph unit * bool) predecessor,
           let start_node :=
             if bool_decide (predecessor ∈ step_nodes) then predecessor
             else super_start_node in
           (add_edge () st.1 start_node step_node, true))
        acc preds.

(** The loop over [execution_graph.successors(step_node)]. *)
Definition add_successor_edges
    (step_nodes : list string) (step_node : string)
    (sfg : DiGraph unit) (succs : list string) : DiGraph unit :=
  foldl (λ acc successor,
           if bool_decide (successor ∈ step_nodes)
           then add_edge () acc step_node successor else acc)
        sfg succs.

(** Body of the loop [for step_node in step_nodes]. *)
Definition visit_step_node
    (execution_graph : DiGraph NodeCategory) (step_nodes : list string)
    (super_start_node : string) (sfg : DiGraph unit) (step_node : string)
    : DiGraph unit :=
  let '(sfg1, has_predecessors) :=
    add_predecessor_edges step_nodes super_start_node step_node (sfg, false)
      (predecessors execution_graph step_node) in
  let sfg2 :=
    if negb has_predecessors then add_edge () sfg1 super_start_node step_node
    else sfg1 in
  add_successor_edges step_nodes step_node sfg2
    (successors execution_graph step_node).

Definition construct_steps_flow_graph
    (execution_graph : DiGraph NodeCategory) (super_start_node : string)
    : DiGraph unit :=
  let steps_flow_graph := add_node () (mkDiGraph [] []) super_start_node in
  let step_nodes := get_nodes_of_specific_category execution_graph STEP_NODE in
  foldl (visit_step_node execution_graph step_nodes super_start_node)
        steps_flow_graph step_nodes.

(** ** Longest-path layering *)

(** Modelled from the spec: [assign_max_distances_from_start]
    ([compiler/graph_constructor.py], not part of the sources at hand).  The
    synthetic source has distance 0; every other node has the maximum, over
    its incoming edges, of the distance of the edge's source plus one.  The
    recursion follows incoming edges backwards and is cut off by [fuel]; the
    number of nodes of the graph is enough fuel on an acyclic graph
    (see [max_distance_equation]). *)
Fixpoint max_distance_from_start
    (fuel : nat) (graph : DiGraph unit) (start_node v : string) : nat :=
  match fuel with
  | 0 => 0
  | S fuel' =>
      if bool_decide (v = start_node) then 0
      else max_list
             ((λ u, S (max_distance_from_start fuel' graph start_node u))
                <$> predecessors graph v)
  end.

Definition distance_of (graph : DiGraph unit) (start_node v : string) : nat :=
  max_distance_from_start (length (nodes graph)) graph start_node v.

Definition assign_max_distances_from_start
    (graph : DiGraph unit) (start_node : string) : DiGraph nat :=
  mkDiGraph ((λ nd : string * unit, (nd.1, distance_of graph start_node nd.1))
               <$> nodes graph)
            (edges graph).

(** Modelled from the spec: [group_nodes_by_sorted_key_value]
    ([compiler/graph_constructor.py], not part of the sources at hand) groups
    the nodes that are not excluded by equal distance, the groups in
    ascending order of distance; only distances that occur form a group. *)
Definition group_nodes_by_sorted_key_value
    (graph : DiGraph nat) (excluded_nodes : gset string) : list (list string) :=
  let kept := filter (λ nd : string * nat, nd.1 ∉ excluded_nodes) (nodes graph) in
  let sorted_key_values :=
    filter (λ d, d ∈ kept.*2) (seq 0 (S (max_list kept.*2))) in
  (λ d, (filter (λ nd : string * nat, nd.2 = d) kept).*1) <$> sorted_key_values.

Definition super_start_node : string := "<start>".

Definition establish_execution_order
    (execution_graph : DiGraph NodeCategory) : list (list string) :=
  let steps_flow_graph :=
    construct_steps_flow_graph execution_graph super_start_node in
  let steps_flow_graph :=
    assign_max_distances_from_start steps_flow_graph super_start_node in
  group_nodes_by_sorted_key_value steps_flow_graph {[ super_start_node ]}.

(** Index of the layer that holds step [s]. *)
Fixpoint layer_index (layers : list (list string)) (s : string) : option nat :=
  match layers with
  | [] => None
  | layer :: rest =>
      if bool_decide (s ∈ layer) then Some 0 else S <$> layer_index rest s
  end.

(** ** ParallelStepExecutionCoordinator *)

Record ParallelStepExecutionCoordinator := mkCoordinator {
  _execution_graph : DiGraph NodeCategory;
  _discarded_steps : gset string;
  __execution_order : option (list (list string));
  __execution_pointer : nat
}.

(** [ParallelStepExecutionCoordinator.init]; the graph is copied, and the
    model holds it by value. *)
Definition coordinator_init (execution_graph : DiGraph NodeCategory)
    : ParallelStepExecutionCoordinator :=
  mkCoordinator execution_graph ∅ None 0.

(** The [while] loop of [get_steps_to_execute_next].  Every iteration
    increments the pointer, so [length execution_order - pointer] iterations
    are all the loop can make; [fuel] counts them down. *)
Fixpoint next_steps_loop
    (fuel : nat) (execution_order : list (list string))
    (discarded_steps : gset string) (execution_pointer : nat)
    : option (list string) * nat :=
  match fuel with
  | 0 => (None, execution_pointer)
  | S fuel' =>
      if bool_decide (execution_pointer < length execution_order) then
        let candidate_steps :=
          filter (λ e, e ∉ discarded_steps)
                 (default [] (execution_order !! execution_pointer)) in
        let execution_pointer := S execution_pointer in
        if bool_decide (length candidate_steps = 0)
        then next_steps_loop fuel' execution_order discarded_steps execution_pointer
        else (Some candidate_steps, execution_pointer)
      else (None, execution_pointer)
  end.

(** [get_steps_to_execute_next]: the returned value ([None] is the terminal
    sentinel) and the coordinator after the call. *)
Definition get_steps_to_execute_next
    (self : ParallelStepExecutionCoordinator) (steps_to_discard : gset string)
    : option (list string) * ParallelStepExecutionCoordinator :=
  let '(execution_order, execution_pointer) :=
    match __execution_order self with
    | None => (establish_execution_order (_execution_graph self), 0)
    | Some order => (order, __execution_pointer self)
    end in
  let discarded_steps := _discarded_steps self ∪ steps_to_discard in
  let '(next_step, execution_pointer) :=
    next_steps_loop (length execution_order - execution_pointer)
      execution_order discarded_steps execution_pointer in
  (next_step,
   mkCoordinator (_execution_graph self) discarded_steps
     (Some execution_order) execution_pointer).

(** The layering a coordinator works with: the one it holds, or the one its
    first call will compute. *)
Definition layers_of (self : ParallelStepExecutionCoordinator) : list (list string) :=
  match __execution_order self with
  | None => establish_execution_order (_execution_graph self)
  | Some order => order
  end.

(** The pointer a call starts from. *)
Definition pointer_of (self : ParallelStepExecutionCoordinator) : nat :=
  match __execution_order self with
  | None => 0
  | Some _ => __execution_pointer self
  end.

(** A run: successive calls with the given discard arguments; the result of
    every call is paired with the pointer after it. *)
Fixpoint run_calls
    (self : ParallelStepExecutionCoordinator) (calls : list (gset string))
    : list (option (list string) * nat) :=
  match calls with
  | [] => []
  | steps_to_discard :: rest =>
      let '(result, self') := get_steps_to_execute_next self steps_to_discard in
      (result, __execution_pointer self') :: run_calls self' rest
  end.

(** ** BranchingManager *)

(** Modelled from the spec: [DynamicBatchIndex]
    ([execution_data_manager/dynamic_batches_manager.py], not part of the
    sources at hand) is a finite sequence of non-negative integers, one per
    nesting level. *)
Abbreviation DynamicBatchIndex := (list nat).

(** [Union[Set[DynamicBatchIndex], bool]]: the two cases are told apart by
    [isinstance(mask, bool)]. *)
Inductive Mask :=
  | BatchSubset (mask : gset DynamicBatchIndex)
  | Scalar (mask : bool).

Global Instance Mask_eq_dec : EqDecision Mask.
Proof. solve_decision. Defined.

Definition isinstance_bool (mask : Mask) : bool :=
  match mask with Scalar _ => true | BatchSubset _ => false end.

Record BranchingManager := mkBranchingManager {
  _masks : gmap string Mask;
  _batch_compatibility : gmap string bool
}.

(** Both failures are a Python [ValueError]; the spec names them by cause:
    re-registering a branch, and asking about a branch never registered. *)
Inductive Error :=
  | DuplicateRegistration (execution_branch : string)
  | UnknownBranch (execution_branch : string).

(** A method call: its outcome and the manager after it.  A raised exception
    leaves the manager in whatever state the method reached before raising,
    so the state is returned in both cases. *)
Definition Call (R : Type) : Type := BranchingManager → (Error + R) * BranchingManager.

Global Instance Call_ret : MRet Call := λ R r self, (inr r, self).
Global Instance Call_bind : MBind Call := λ R S k c self,
  match c self with
  | (inl e, self') => (inl e, self')
  | (inr r, self') => k r self'
  end.
Definition raise {R} (e : Error) : Call R := λ self, (inl e, self).
Definition get_self : Call BranchingManager := λ self, (inr self, self).
Definition set_batch_compatibility (execution_branch : string) (b : bool) : Call unit :=
  λ self, (inr (), mkBranchingManager (_masks self)
                     (<[execution_branch := b]> (_batch_compatibility self))).
Definition set_mask (execution_branch : string) (mask : Mask) : Call unit :=
  λ self, (inr (), mkBranchingManager (<[execution_branch := mask]> (_masks self))
                     (_batch_compatibility self)).

(** [BranchingManager.__init__]. *)
Definition BranchingManager_new (masks : gmap string Mask) : BranchingManager :=
  mkBranchingManager masks ((λ mask, negb (isinstance_bool mask)) <$> masks).

(** [BranchingManager.init]. *)
Definition BranchingManager_init : BranchingManager := BranchingManager_new ∅.

Definition register_batch_oriented_mask
    (execution_branch : string) (mask : gset DynamicBatchIndex) : Call unit :=
  self ← get_self;
  if bool_decide (execution_branch ∈ dom (_masks self))
  then raise (DuplicateRegistration execution_branch)
  else set_batch_compatibility execution_branch true;;
       set_mask execution_branch (BatchSubset mask).

Definition register_non_batch_mask
    (execution_branch : string) (mask : bool) : Call unit :=
  self ← get_self;
  if bool_decide (execution_branch ∈ dom (_masks self))
  then raise (DuplicateRegistration execution_branch)
  else set_batch_compatibility execution_branch false;;
       set_mask execution_branch (Scalar mask).

Definition get_mask (execution_branch : string) : Call Mask :=
  self ← get_self;
  match _masks self !! execution_branch with
  | None => raise (UnknownBranch execution_branch)
  | Some mask => mret mask
  end.

Definition is_execution_branch_batch_oriented (execution_branch : string) : Call bool :=
  self ← get_self;
  match _batch_compatibility self !! execution_branch with
  | None => raise (UnknownBranch execution_branch)
  | Some b => mret b
  end.

Definition is_execution_branch_registered (execution_branch : string) : Call bool :=
  self ← get_self;
  mret (bool_decide (execution_branch ∈ dom (_masks self))).

(** ** Vocabulary of the properties *)

(** [g'] is [g] with the edges [es] (and their endpoints) added. *)
Definition extends_with {A} (es : list (string * string)) (g g' : DiGraph A) : Prop :=
  (∀ e, e ∈ edges g' ↔ e ∈ edges g ∨ e ∈ es) ∧
  (∀ x, x ∈ node_names g' ↔
        x ∈ node_names g ∨ ∃ e, e ∈ es ∧ (x = e.1 ∨ x = e.2)) ∧
  (NoDup (node_names g) → NoDup (node_names g')).

(** The source of the step-flow edge that stands for the execution-graph
    edge from [predecessor]. *)
Definition flow_source (step_nodes : list string) (start predecessor : string) : string :=
  if bool_decide (predecessor ∈ step_nodes) then predecessor else start.

(** The edges one visit of [step_node] asks for, in the order of the code. *)
Definition planned_edges
    (eg : DiGraph NodeCategory) (step_nodes : list string)
    (start step_node : string) : list (string * string) :=
  ((λ p, (flow_source step_nodes start p, step_node)) <$> predecessors eg step_node)
  ++ (if bool_decide (predecessors eg step_node = [])
      then [(start, step_node)] else [])
  ++ ((λ s, (step_node, s)) <$>
        filter (λ s, s ∈ step_nodes) (successors eg step_node)).

(** A walk against the direction of the edges: every node of the list has an
    edge from the node that follows it. *)
Fixpoint is_back_walk (G : DiGraph unit) (p : list string) : Prop :=
  match p with
  | x :: p' =>
      match p' with
      | y :: _ => has_edge G y x ∧ is_back_walk G p'
      | [] => True
      end
  | [] => True
  end.

(** Every endpoint of an edge is a node of the graph. *)
Definition edges_closed {A} (G : DiGraph A) : Prop :=
  ∀ u v, has_edge G u v → u ∈ node_names G ∧ v ∈ node_names G.

(** The parts of [group_nodes_by_sorted_key_value]: the nodes kept, the group
    of one distance, and the distances that occur, in ascending order. *)
Definition kept_nodes (graph : DiGraph nat) (excluded : gset string)
    : list (string * nat) :=
  filter (λ nd : string * nat, nd.1 ∉ excluded) (nodes graph).

Definition group_at (graph : DiGraph nat) (excluded : gset string) (d : nat)
    : list string :=
  (filter (λ nd : string * nat, nd.2 = d) (kept_nodes graph excluded)).*1.

Definition sorted_keys (graph : DiGraph nat) (excluded : gset string) : list nat :=
  filter (λ d, d ∈ (kept_nodes graph excluded).*2)
         (seq 0 (S (max_list (kept_nodes graph excluded).*2))).

(** The nodes that grouping keeps: those of the graph that are not excluded. *)
Definition is_kept (graph : DiGraph nat) (excluded : gset string) (s : string) : Prop :=
  s ∈ node_names graph ∧ s ∉ excluded.

(** A direct dependency between two Step nodes, and the step-ancestors of a
    step along such dependencies only: the steps it depends on through a
    chain of Step nodes joined by direct edges.  This is ancestry in the
    step-flow graph; a dependency that passes through a Data node is not
    part of it. *)
Definition step_edge (g : DiGraph NodeCategory) (a b : string) : Prop :=
  has_edge g a b ∧ is_step g a ∧ is_step g b.

Definition step_ancestor (g : DiGraph NodeCategory) : relation string :=
  tc (step_edge g).

(** Ancestry among the Step nodes of the execution graph itself: [a] is a
    Step node from which the Step node [b] is reached along one or more
    edges of the execution graph, through nodes of any category. *)
Definition graph_step_ancestor (g : DiGraph NodeCategory) (a b : string) : Prop :=
  is_step g a ∧ is_step g b ∧ tc (has_edge g) a b.

(** The scenario graph of the spec: steps A, B, C with edges A→C and B→C, and
    an input feeding A and B. *)
Definition scenario_graph : DiGraph NodeCategory :=
  mkDiGraph [("in", DATA_NODE); ("A", STEP_NODE); ("B", STEP_NODE); ("C", STEP_NODE)]
            [("in", "A"); ("in", "B"); ("A", "C"); ("B", "C")].

(** A graph in which step B depends on step A only through a Data node. *)
Definition mediated_graph : DiGraph NodeCategory :=
  mkDiGraph [("A", STEP_NODE); ("D", DATA_NODE); ("B", STEP_NODE)]
            [("A", "D"); ("D", "B")].

Definition scenario_rank (s : string) : nat :=
  if bool_decide (s = "in") then 0 else if bool_decide (s = "C") then 2 else 1.

Definition mediated_rank (s : string) : nat :=
  if bool_decide (s = "A") then 0 else if bool_decide (s = "B") then 2 else 1.

(** Every step of the layer is in the discard set. *)
Definition fully_discarded (discarded : gset string) (layer : list string) : Prop :=
  ∀ e, e ∈ layer → e ∈ discarded.

(** What one run of the loop returns, given fuel for every remaining layer. *)
Definition loop_outcome
    (order : list (list string)) (discarded : gset string) (ptr : nat)
    (r : option (list string) * nat) : Prop :=
  match r.1 with
  | Some steps =>
      ∃ k layer,
        (ptr ≤ k)%nat ∧ order !! k = Some layer ∧
        steps = filter (λ e, e ∉ discarded) layer ∧ steps ≠ [] ∧
        r.2 = S k ∧
        ∀ k' layer', (ptr ≤ k' < k)%nat → order !! k' = Some layer' →
                     fully_discarded discarded layer'
  | None =>
      r.2 = (ptr `max` length order)%nat ∧
      ∀ k' layer', (ptr ≤ k')%nat → order !! k' = Some layer' →
                   fully_discarded discarded layer'
  end.

(** The names of [X] occur in no layer. *)
Definition inert (order : list (list string)) (X : gset string) : Prop :=
  ∀ n layer, n ∈ X → layer ∈ order → n ∉ layer.

(** Two coordinators that differ only by inert names in the discard set. *)
Definition differ_by_inert (self1 self2 : ParallelStepExecutionCoordinator) : Prop :=
  _execution_graph self1 = _execution_graph self2 ∧
  __execution_order self1 = __execution_order self2 ∧
  __execution_pointer self1 = __execution_pointer self2 ∧
  ∃ X, inert (layers_of self2) X ∧
       _discarded_steps self1 = _discarded_steps self2 ∪ X.

Definition scenario_inert_calls : list (gset string * gset string) :=
  [(∅, {["ghost"]}); ({["A"]}, {["phantom"]})].

(** A registration call, and the manager after a sequence of them (each call
    may succeed or raise; the manager carries on from the state it left). *)
Inductive Registration :=
  | RegisterBatchOriented (execution_branch : string) (mask : gset DynamicBatchIndex)
  | RegisterNonBatch (execution_branch : string) (mask : bool).

Definition registration_branch (op : Registration) : string :=
  match op with
  | RegisterBatchOriented execution_branch _ => execution_branch
  | RegisterNonBatch execution_branch _ => execution_branch
  end.

Definition registration_mask (op : Registration) : Mask :=
  match op with
  | RegisterBatchOriented _ mask => BatchSubset mask
  | RegisterNonBatch _ mask => Scalar mask
  end.

Definition perform (op : Registration) : Call unit :=
  match op with
  | RegisterBatchOriented execution_branch mask =>
      register_batch_oriented_mask execution_branch mask
  | RegisterNonBatch execution_branch mask =>
      register_non_batch_mask execution_branch mask
  end.

Definition after (ops : list Registration) (self : BranchingManager)
    : BranchingManager :=
  foldl (λ s op, (perform op s).2) self ops.

(** The orientation table agrees with the masks. *)
Definition consistent (self : BranchingManager) : Prop :=
  _batch_compatibility self
  = (λ mask, negb (isinstance_bool mask)) <$> _masks self.

Definition registered_cond1 : BranchingManager :=
  after [RegisterNonBatch "cond1" true] BranchingManager_init.

(** * Properties *)

(** ** Graph operations *)

Section digraph_facts.
Context {A : Type} (a : A).
Implicit Types (g : DiGraph A) (u v x y : string).

Lemma edges_add_node g n : edges (add_node a g n) = edges g.
Proof. unfold add_node. by destruct (bool_decide _). Qed.

Lemma elem_of_node_names_add_node g n x :
  x ∈ node_names (add_node a g n) ↔ x = n ∨ x ∈ node_names g.
Proof.
  unfold add_node. destruct (bool_decide_reflect (n ∈ node_names g)) as [Hn|Hn].
  - split; [tauto|]. by intros [->|?].
  - unfold node_names. simpl. rewrite fmap_app, elem_of_app. simpl.
    rewrite list_elem_of_singleton. tauto.
Qed.

Lemma NoDup_node_names_add_node g n :
  NoDup (node_names g) → NoDup (node_names (add_node a g n)).
Proof.
  intros Hnd. unfold add_node.
  destruct (bool_decide_reflect (n ∈ node_names g)) as [Hn|Hn]; [done|].
  unfold node_names. simpl. rewrite fmap_app. apply NoDup_app.
  split; [done|]. split; [|apply NoDup_singleton].
  intros x Hx Hx'. apply list_elem_of_singleton in Hx'. by subst.
Qed.

Lemma elem_of_edges_add_edge g u v e :
  e ∈ edges (add_edge a g u v) ↔ e = (u, v) ∨ e ∈ edges g.
Proof.
  unfold add_edge. set (g' := add_node a (add_node a g u) v).
  assert (edges g' = edges g) as Hg' by (unfold g'; by rewrite !edges_add_node).
  destruct (bool_decide_reflect ((u, v) ∈ edges g')) as [He|He]; simpl;
    rewrite ?elem_of_app, ?list_elem_of_singleton, Hg'; [|tauto].
  rewrite Hg' in He. split; [tauto|]. by intros [->|?].
Qed.

Lemma elem_of_node_names_add_edge g u v x :
  x ∈ node_names (add_edge a g u v) ↔ x = u ∨ x = v ∨ x ∈ node_names g.
Proof.
  unfold add_edge. destruct (bool_decide _); unfold node_names at 1; simpl;
    fold (node_names (add_node a (add_node a g u) v));
    rewrite !elem_of_node_names_add_node; tauto.
Qed.

Lemma NoDup_node_names_add_edge g u v :
  NoDup (node_names g) → NoDup (node_names (add_edge a g u v)).
Proof.
  intros Hnd. unfold add_edge.
  destruct (bool_decide _); unfold node_names at 1; simpl;
    by do 2 apply NoDup_node_names_add_node.
Qed.

Lemma elem_of_predecessors g u v : u ∈ predecessors g v ↔ has_edge g u v.
Proof.
  unfold predecessors, has_edge. rewrite list_elem_of_fmap. split.
  - intros [[u' v'] [-> He]]. apply list_elem_of_filter in He as [Hv He].
    simpl in *. by subst.
  - intros He. exists (u, v). split; [done|]. by apply list_elem_of_filter.
Qed.

Lemma elem_of_successors g u v : v ∈ successors g u ↔ has_edge g u v.
Proof.
  unfold successors, has_edge. rewrite list_elem_of_fmap. split.
  - intros [[u' v'] [-> He]]. apply list_elem_of_filter in He as [Hv He].
    simpl in *. by subst.
  - intros He. exists (u, v). split; [done|]. by apply list_elem_of_filter.
Qed.

Lemma extends_with_nil g : extends_with [] g g.
Proof.
  repeat split; try tauto; try (intros [?|?]; [done|]).
  - by apply elem_of_nil in H.
  - destruct H as [e [He _]]. by apply elem_of_nil in He.
Qed.

Lemma extends_with_add_edge g u v : extends_with [(u, v)] g (add_edge a g u v).
Proof.
  split; [|split].
  - intros e. rewrite elem_of_edges_add_edge, list_elem_of_singleton. tauto.
  - intros x. rewrite elem_of_node_names_add_edge. split.
    + intros [->|[->|Hx]]; [right|right|by left];
        exists (u, v); rewrite list_elem_of_singleton; naive_solver.
    + intros [Hx|[e [He Hx]]]; [tauto|].
      apply list_elem_of_singleton in He. subst e. simpl in Hx. tauto.
  - apply NoDup_node_names_add_edge.
Qed.

Lemma extends_with_app es1 es2 g g' g'' :
  extends_with es1 g g' → extends_with es2 g' g'' →
  extends_with (es1 ++ es2) g g''.
Proof.
  intros (He1 & Hn1 & Hd1) (He2 & Hn2 & Hd2). split; [|split].
  - intros e. rewrite He2, He1, elem_of_app. tauto.
  - intros x. rewrite Hn2, Hn1. setoid_rewrite elem_of_app. naive_solver.
  - tauto.
Qed.
End digraph_facts.

(** ** The step-flow graph *)

Section steps_flow_graph.
Context (eg : DiGraph NodeCategory) (step_nodes : list string) (start : string).

Lemma add_predecessor_edges_cons step_node p preds sfg flag :
  add_predecessor_edges step_nodes start step_node (sfg, flag) (p :: preds) =
  add_predecessor_edges step_nodes start step_node
    (add_edge () sfg (flow_source step_nodes start p) step_node, true) preds.
Proof. reflexivity. Qed.

Lemma add_predecessor_edges_extends step_node preds sfg flag :
  extends_with ((λ p, (flow_source step_nodes start p, step_node)) <$> preds) sfg
    (add_predecessor_edges step_nodes start step_node (sfg, flag) preds).1 ∧
  (add_predecessor_edges step_nodes start step_node (sfg, flag) preds).2
  = (flag || bool_decide (preds ≠ [])).
Proof.
  revert sfg flag. induction preds as [|p preds IH]; intros sfg flag.
  - split; [apply extends_with_nil|]. simpl. by rewrite orb_false_r.
  - rewrite add_predecessor_edges_cons.
    destruct (IH (add_edge () sfg (flow_source step_nodes start p) step_node) true) as [Hext Hflag].
    split.
    + rewrite fmap_cons.
      eapply (extends_with_app [_]); [apply extends_with_add_edge|exact Hext].
    + rewrite Hflag. rewrite (bool_decide_eq_true_2 (p :: preds ≠ [])) by done.
      by rewrite orb_true_r.
Qed.

Lemma add_successor_edges_extends step_node succs sfg :
  extends_with ((λ s, (step_node, s)) <$> filter (λ s, s ∈ step_nodes) succs)
    sfg (add_successor_edges step_nodes step_node sfg succs).
Proof.
  revert sfg. induction succs as [|s succs IH]; intros sfg; simpl.
  - apply extends_with_nil.
  - rewrite filter_cons.
    destruct (bool_decide_reflect (s ∈ step_nodes)) as [Hs|Hs].
    + rewrite decide_True by done. rewrite fmap_cons.
      eapply (extends_with_app [_]); [apply extends_with_add_edge|apply IH].
    + rewrite decide_False by done. apply IH.
Qed.

Lemma visit_step_node_extends sfg step_node :
  extends_with (planned_edges eg step_nodes start step_node) sfg
    (visit_step_node eg step_nodes start sfg step_node).
Proof.
  unfold visit_step_node, planned_edges.
  pose proof (add_predecessor_edges_extends step_node
                (predecessors eg step_node) sfg false) as [Hext Hflag].
  destruct (add_predecessor_edges _ _ _ _ _) as [sfg1 has_predecessors].
  simpl in *. subst has_predecessors.
  eapply extends_with_app; [exact Hext|].
  eapply extends_with_app; [|apply add_successor_edges_extends].
  destruct (predecessors eg step_node) as [|p ps]; simpl.
  - apply extends_with_add_edge.
  - apply extends_with_nil.
Qed.

Lemma foldl_visit_extends steps sfg :
  extends_with (steps ≫= planned_edges eg step_nodes start) sfg
    (foldl (visit_step_node eg step_nodes start) sfg steps).
Proof.
  revert sfg. induction steps as [|s steps IH]; intros sfg; simpl.
  - apply extends_with_nil.
  - eapply extends_with_app; [apply visit_step_node_extends|apply IH].
Qed.
End steps_flow_graph.

Lemma construct_steps_flow_graph_extends (g : DiGraph NodeCategory) (start : string) :
  extends_with
    (get_nodes_of_specific_category g STEP_NODE
       ≫= planned_edges g (get_nodes_of_specific_category g STEP_NODE) start)
    (add_node () (mkDiGraph [] []) start)
    (construct_steps_flow_graph g start).
Proof. apply foldl_visit_extends. Qed.

Lemma elem_of_planned_edges (g : DiGraph NodeCategory) (start s u v : string) :
  (u, v) ∈ planned_edges g (get_nodes_of_specific_category g STEP_NODE) start s ↔
  v = s ∧
  ((∃ p, has_edge g p v ∧ u = (if decide (is_step g p) then p else start))
   ∨ ((∀ p, ¬ has_edge g p v) ∧ u = start))
  ∨ u = s ∧ is_step g v ∧ has_edge g u v.
Proof.
  unfold planned_edges. rewrite !elem_of_app, !list_elem_of_fmap. split.
  - intros [(p & Heq & Hp)|[Hnone|(x & Heq & Hx)]].
    + injection Heq as -> ->. left. split; [done|]. left. exists p.
      apply elem_of_predecessors in Hp. split; [done|].
      unfold flow_source, is_step. by destruct (decide _); 
        [rewrite bool_decide_eq_true_2|rewrite bool_decide_eq_false_2].
    + destruct (bool_decide_reflect (predecessors g s = [])) as [Hnil|Hnil];
        [|by apply elem_of_nil in Hnone].
      apply list_elem_of_singleton in Hnone. injection Hnone as -> ->.
      left. split; [done|]. right. split; [|done].
      intros p Hp. apply elem_of_predecessors in Hp. rewrite Hnil in Hp.
      by apply elem_of_nil in Hp.
    + injection Heq as -> ->. apply list_elem_of_filter in Hx as [Hst Hx].
      apply elem_of_successors in Hx. by right.
  - intros [[-> [(p & Hp & ->)|[Hnone ->]]]|(-> & Hst & Hs)].
    + left. exists p. split; [|by apply elem_of_predecessors].
      unfold flow_source, is_step. by destruct (decide _);
        [rewrite bool_decide_eq_true_2|rewrite bool_decide_eq_false_2].
    + right. left. rewrite bool_decide_eq_true_2; [by apply list_elem_of_singleton|].
      destruct (predecessors g s) as [|p ps] eqn:Hps; [done|].
      exfalso. apply (Hnone p), elem_of_predecessors. rewrite Hps. by left.
    + right. right. exists v. split; [done|]. apply list_elem_of_filter.
      split; [done|]. by apply elem_of_successors.
Qed.

Lemma steps_flow_graph_has_edge (g : DiGraph NodeCategory) (start u v : string) :
  has_edge (construct_steps_flow_graph g start) u v ↔
  is_step g v ∧
  ((∃ p, has_edge g p v ∧ u = (if decide (is_step g p) then p else start))
   ∨ ((∀ p, ¬ has_edge g p v) ∧ u = start)).
Proof.
  unfold has_edge at 1.
  destruct (construct_steps_flow_graph_extends g start) as (He & _ & _).
  rewrite He, edges_add_node. simpl. rewrite list_elem_of_bind.
  setoid_rewrite elem_of_planned_edges. split.
  - intros [H|(s & [[-> Hc]|(-> & Hv & Huv)] & Hs)]; [by apply elem_of_nil in H| |].
    + done.
    + split; [done|]. left. exists s. split; [done|].
      by rewrite decide_True.
  - intros [Hv Hc]. right. exists v. split; [|done]. left. by split.
Qed.

(** Every Step node has an incoming edge in the step-flow graph. *)
Lemma steps_flow_graph_step_has_pred (g : DiGraph NodeCategory) (start v : string) :
  is_step g v → ∃ u, has_edge (construct_steps_flow_graph g start) u v.
Proof.
  intros Hv. destruct (predecessors g v) as [|p ps] eqn:Hps.
  - exists start. apply steps_flow_graph_has_edge. split; [done|]. right.
    split; [|done]. intros p Hp. apply elem_of_predecessors in Hp.
    rewrite Hps in Hp. by apply elem_of_nil in Hp.
  - eexists. apply steps_flow_graph_has_edge. split; [done|]. left.
    exists p. split; [|done]. apply elem_of_predecessors. rewrite Hps. by left.
Qed.

(** C3.  The edges of the step-flow graph are exactly: for every Step node
    [v] and every direct predecessor [p] of [v] in the execution graph, the
    edge from [p] when [p] is a Step node and from the synthetic source
    otherwise; and the edge from the synthetic source to every Step node
    without predecessors.  Hence a Step node with a non-Step predecessor, or
    with no Step predecessor, has an edge from the synthetic source. *)
Theorem construct_steps_flow_graph_edges :
  ∀ (g : DiGraph NodeCategory) (start : string),
    (∀ u v,
       has_edge (construct_steps_flow_graph g start) u v ↔
       is_step g v ∧
       ((∃ p, has_edge g p v ∧ u = (if decide (is_step g p) then p else start))
        ∨ ((∀ p, ¬ has_edge g p v) ∧ u = start)))
    ∧ (∀ v, is_step g v →
         (∃ p, has_edge g p v ∧ ¬ is_step g p) ∨
         (∀ p, has_edge g p v → ¬ is_step g p) →
         has_edge (construct_steps_flow_graph g start) start v).
Proof.
  intros g start. split; [apply steps_flow_graph_has_edge|].
  intros v Hv Hcases. apply steps_flow_graph_has_edge. split; [done|].
  destruct Hcases as [(p & Hp & Hnp)|Hall].
  - left. exists p. split; [done|]. by rewrite decide_False.
  - destruct (predecessors g v) as [|p ps] eqn:Hps.
    + right. split; [|done]. intros p Hp. apply elem_of_predecessors in Hp.
      rewrite Hps in Hp. by apply elem_of_nil in Hp.
    + left. exists p.
      assert (has_edge g p v) as Hp
        by (apply elem_of_predecessors; rewrite Hps; by left).
      split; [done|]. rewrite decide_False; [done|]. by apply Hall.
Qed.

(** ** Longest-path distances on an acyclic graph *)

Section max_distance.
Context (G : DiGraph unit) (start : string).
Local Abbreviation d := (λ k, max_distance_from_start k G start).

Lemma max_distance_S k v :
  d (S k) v =
  if bool_decide (v = start) then 0
  else max_list ((λ u, S (d k u)) <$> predecessors G v).
Proof. reflexivity. Qed.

Lemma back_walk_tc x p y :
  is_back_walk G (x :: p) → y ∈ p → tc (has_edge G) y x.
Proof.
  revert x. induction p as [|z p IH]; intros x Hw Hy.
  - by apply elem_of_nil in Hy.
  - destruct Hw as [Hzx Hw]. apply elem_of_cons in Hy as [->|Hy].
    + by apply tc_once.
    + eapply tc_r; [by apply IH|done].
Qed.

Lemma back_walk_NoDup p : acyclic G → is_back_walk G p → NoDup p.
Proof.
  intros Hacyc. induction p as [|x p IH]; intros Hw; [constructor|].
  apply NoDup_cons. split.
  - intros Hx. apply (Hacyc x). by eapply back_walk_tc.
  - apply IH. destruct p; [done|]. by destruct Hw.
Qed.

Lemma back_walk_nodes x y p :
  edges_closed G → is_back_walk G (x :: y :: p) →
  ∀ z, z ∈ x :: y :: p → z ∈ node_names G.
Proof.
  intros Hcl. revert x y. induction p as [|w p IH]; intros x y [Hyx Hw] z Hz.
  - destruct (Hcl _ _ Hyx). set_solver.
  - apply elem_of_cons in Hz as [->|Hz].
    + by destruct (Hcl _ _ Hyx).
    + by apply (IH y w).
Qed.

(** A node whose distance still changes with [S k] units of fuel ends a walk
    of [S k] edges. *)
Lemma unstable_back_walk k v :
  d (S k) v ≠ d k v → ∃ p, is_back_walk G (v :: p) ∧ length p = S k.
Proof.
  revert v. induction k as [|k IH]; intros v Hne.
  - rewrite max_distance_S in Hne. simpl in Hne.
    destruct (bool_decide (v = start)); [done|].
    destruct (predecessors G v) as [|u us] eqn:Hps; [done|].
    exists [u]. split; [|done]. split; [|done].
    apply elem_of_predecessors. rewrite Hps. by left.
  - rewrite (max_distance_S (S k)), (max_distance_S k) in Hne.
    destruct (bool_decide (v = start)); [done|].
    destruct (decide (Forall (λ u, d (S k) u = d k u) (predecessors G v)))
      as [Hall|Hex].
    + exfalso. apply Hne. f_equal. apply Forall_fmap_ext_1.
      eapply Forall_impl; [exact Hall|]. intros u Hu. simpl in *. by f_equal.
    + apply not_Forall_Exists in Hex; [|apply _].
      apply Exists_exists in Hex as (u & Hu & Hne').
      destruct (IH u Hne') as (p & Hw & Hlen).
      exists (u :: p). split; [|simpl; by rewrite Hlen].
      split; [by apply elem_of_predecessors|done].
Qed.

(** On an acyclic graph the number of nodes is enough fuel: from there on
    the distances no longer change. *)
Lemma max_distance_stable k v :
  acyclic G → edges_closed G → (length (nodes G) ≤ k)%nat →
  d (S k) v = d k v.
Proof.
  intros Hacyc Hcl Hk.
  destruct (decide (d (S k) v = d k v)) as [|Hne]; [done|exfalso].
  destruct (unstable_back_walk _ _ Hne) as (p & Hw & Hlen).
  destruct p as [|u p]; [done|].
  assert (v :: u :: p ⊆+ node_names G) as Hsub.
  { apply NoDup_submseteq; [by apply back_walk_NoDup|].
    by apply back_walk_nodes. }
  apply submseteq_length in Hsub. unfold node_names in Hsub.
  rewrite length_fmap in Hsub. simpl in *. lia.
Qed.

Lemma max_distance_fuel k v :
  acyclic G → edges_closed G → (length (nodes G) ≤ k)%nat →
  d k v = distance_of G start v.
Proof.
  intros Hacyc Hcl. unfold distance_of. induction 1 as [|k Hk IH]; [done|].
  rewrite <- IH. by apply max_distance_stable.
Qed.

(** The defining equation of the longest-path distance. *)
Lemma max_distance_equation v :
  acyclic G → edges_closed G →
  distance_of G start v =
  if bool_decide (v = start) then 0
  else max_list ((λ u, S (distance_of G start u)) <$> predecessors G v).
Proof.
  intros Hacyc Hcl. unfold distance_of.
  rewrite <- (max_distance_stable (length (nodes G))) by done.
  apply max_distance_S.
Qed.

Lemma distance_of_start : acyclic G → edges_closed G → distance_of G start start = 0.
Proof.
  intros. rewrite max_distance_equation by done. by rewrite bool_decide_eq_true_2.
Qed.

Lemma distance_of_edge u v :
  acyclic G → edges_closed G → v ≠ start → has_edge G u v →
  distance_of G start u < distance_of G start v.
Proof.
  intros Hacyc Hcl Hv Huv. rewrite (max_distance_equation v) by done.
  rewrite bool_decide_eq_false_2 by done.
  assert (S (distance_of G start u)
          ∈ (λ u, S (distance_of G start u)) <$> predecessors G v) as Hin.
  { apply list_elem_of_fmap. exists u. split; [done|].
    by apply elem_of_predecessors. }
  apply max_list_elem_of_le in Hin. lia.
Qed.

(** A node other than the source with an incoming edge has a predecessor at
    distance exactly one less. *)
Lemma distance_of_attained v :
  acyclic G → edges_closed G → v ≠ start → predecessors G v ≠ [] →
  ∃ u, has_edge G u v ∧ distance_of G start v = S (distance_of G start u).
Proof.
  intros Hacyc Hcl Hv Hps. rewrite (max_distance_equation v) by done.
  rewrite bool_decide_eq_false_2 by done.
  pose proof (max_list_elem_of
    ((λ u, S (distance_of G start u)) <$> predecessors G v)) as Hin.
  assert ((λ u, S (distance_of G start u)) <$> predecessors G v ≠ []) as Hne
    by (by destruct (predecessors G v)).
  apply Hin, list_elem_of_fmap in Hne as (u & Heq & Hu).
  exists u. split; [by apply elem_of_predecessors|done].
Qed.
End max_distance.

(** ** Grouping by distance *)

Lemma group_nodes_unfold graph excluded :
  group_nodes_by_sorted_key_value graph excluded
  = group_at graph excluded <$> sorted_keys graph excluded.
Proof. reflexivity. Qed.

Lemma layer_index_Some layers s i :
  layer_index layers s = Some i →
  ∃ layer, layers !! i = Some layer ∧ s ∈ layer.
Proof.
  revert i. induction layers as [|l layers IH]; intros i; simpl; [done|].
  destruct (bool_decide_reflect (s ∈ l)) as [Hs|Hs].
  - intros [= <-]. by exists l.
  - destruct (layer_index layers s) as [j|]; [|done].
    intros [= <-]. by apply IH.
Qed.

Lemma layer_index_fmap_seq (f : nat → list string) s d a n :
  a ≤ d < a + n → s ∈ f d → (∀ d', a ≤ d' < d → s ∉ f d') →
  layer_index (f <$> seq a n) s = Some (d - a).
Proof.
  revert a. induction n as [|n IH]; intros a Hd Hs Hbefore; [lia|].
  change (seq a (S n)) with (a :: seq (S a) n). rewrite fmap_cons.
  cbn [layer_index]. destruct (decide (d = a)) as [->|Hne].
  - rewrite bool_decide_eq_true_2 by done. f_equal. lia.
  - rewrite bool_decide_eq_false_2 by (apply Hbefore; lia).
    rewrite (IH (S a)); [simpl; f_equal; lia|lia|done|].
    intros d' Hd'. apply Hbefore. lia.
Qed.

Lemma filter_all {X} (P : X → Prop) `{!∀ x, Decision (P x)} (l : list X) :
  Forall P l → filter P l = l.
Proof.
  induction 1 as [|x l Hx Hl IH]; [done|].
  rewrite filter_cons_True by done. by f_equal.
Qed.

Section grouping.
Context (graph : DiGraph nat) (excluded : gset string) (D : string → nat).
Hypothesis HD : ∀ x dv, (x, dv) ∈ nodes graph → dv = D x.

Lemma elem_of_kept_nodes x dv :
  (x, dv) ∈ kept_nodes graph excluded ↔ is_kept graph excluded x ∧ dv = D x.
Proof.
  unfold kept_nodes, is_kept, node_names.
  rewrite list_elem_of_filter, list_elem_of_fmap. simpl. split.
  - intros [Hx Hin]. split; [|by apply HD]. split; [|done]. by exists (x, dv).
  - intros [[([x' dv'] & -> & Hin) Hx] ->]. simpl in *. split; [done|].
    by rewrite <- (HD _ _ Hin).
Qed.

Lemma elem_of_kept_keys dv :
  dv ∈ (kept_nodes graph excluded).*2
  ↔ ∃ x, is_kept graph excluded x ∧ D x = dv.
Proof.
  rewrite list_elem_of_fmap. split.
  - intros ([x dv'] & -> & Hin). apply elem_of_kept_nodes in Hin as [Hk ->].
    by exists x.
  - intros (x & Hk & <-). exists (x, D x). split; [done|].
    by apply elem_of_kept_nodes.
Qed.

Lemma elem_of_group_at s dv :
  s ∈ group_at graph excluded dv ↔ is_kept graph excluded s ∧ D s = dv.
Proof.
  unfold group_at. rewrite list_elem_of_fmap. split.
  - intros ([x dv'] & -> & Hin). apply list_elem_of_filter in Hin as [Heq Hin].
    apply elem_of_kept_nodes in Hin as [Hk ->]. simpl in *. by subst.
  - intros [Hk <-]. exists (s, D s). split; [done|].
    apply list_elem_of_filter. split; [done|]. by apply elem_of_kept_nodes.
Qed.

Lemma elem_of_sorted_keys dv :
  dv ∈ sorted_keys graph excluded
  ↔ ∃ x, is_kept graph excluded x ∧ D x = dv.
Proof.
  unfold sorted_keys. rewrite list_elem_of_filter, elem_of_seq.
  rewrite <- elem_of_kept_keys. split; [tauto|].
  intros Hin. split; [done|]. apply max_list_elem_of_le in Hin. lia.
Qed.

Lemma NoDup_sorted_keys : NoDup (sorted_keys graph excluded).
Proof. apply NoDup_filter, NoDup_seq. Qed.

Lemma NoDup_group_at dv :
  NoDup (node_names graph) → NoDup (group_at graph excluded dv).
Proof.
  intros Hnd. eapply sublist_NoDup; [exact Hnd|].
  unfold group_at, kept_nodes, node_names. apply fmap_sublist.
  etrans; apply sublist_filter.
Qed.

Lemma NoDup_join_groups ks :
  NoDup (node_names graph) → NoDup ks →
  NoDup (mjoin (group_at graph excluded <$> ks)).
Proof.
  intros Hnd. induction 1 as [|k ks Hk Hks IH]; simpl; [constructor|].
  apply NoDup_app. split; [by apply NoDup_group_at|]. split; [|done].
  intros s Hs Hs'. apply elem_of_group_at in Hs as [_ Hs].
  apply list_elem_of_join in Hs' as (l & Hsl & Hl).
  apply list_elem_of_fmap in Hl as (k' & -> & Hk').
  apply elem_of_group_at in Hsl as [_ Hs']. congruence.
Qed.

Lemma elem_of_group_nodes s :
  s ∈ mjoin (group_nodes_by_sorted_key_value graph excluded)
  ↔ is_kept graph excluded s.
Proof.
  rewrite group_nodes_unfold, list_elem_of_join. split.
  - intros (l & Hs & Hl). apply list_elem_of_fmap in Hl as (k & -> & Hk).
    by apply elem_of_group_at in Hs as [? _].
  - intros Hk. exists (group_at graph excluded (D s)). split.
    + by apply elem_of_group_at.
    + apply list_elem_of_fmap. exists (D s). split; [done|].
      apply elem_of_sorted_keys. by exists s.
Qed.

Lemma NoDup_group_nodes :
  NoDup (node_names graph) →
  NoDup (mjoin (group_nodes_by_sorted_key_value graph excluded)).
Proof.
  intros. rewrite group_nodes_unfold.
  apply NoDup_join_groups; [done|apply NoDup_sorted_keys].
Qed.

(** When the distances of the kept nodes are positive and every distance
    above 1 has a kept node just below it, the distances that occur are
    1, 2, ..., m and the layer of a node is its distance minus one. *)
Hypothesis Hpos : ∀ s, is_kept graph excluded s → (1 ≤ D s)%nat.
Hypothesis Hbelow :
  ∀ s, is_kept graph excluded s → (2 ≤ D s)%nat →
       ∃ t, is_kept graph excluded t ∧ D s = S (D t).

Lemma kept_keys_downward s dv :
  is_kept graph excluded s → (1 ≤ dv ≤ D s)%nat →
  ∃ t, is_kept graph excluded t ∧ D t = dv.
Proof.
  remember (D s - dv) as gap eqn:Hgap. revert s Hgap.
  induction gap as [|gap IH]; intros s Hgap Hk Hdv.
  - exists s. split; [done|lia].
  - destruct (Hbelow s Hk) as (t & Hkt & Hst); [lia|].
    apply (IH t); [lia|done|lia].
Qed.

Lemma sorted_keys_contiguous :
  sorted_keys graph excluded = seq 1 (max_list (kept_nodes graph excluded).*2).
Proof.
  unfold sorted_keys. set (ks := (kept_nodes graph excluded).*2).
  simpl. rewrite filter_cons, decide_False.
  2:{ intros H0. apply elem_of_kept_keys in H0 as (x & Hk & Hx).
      specialize (Hpos x Hk). lia. }
  apply filter_all. apply Forall_forall. intros dv Hdv.
  apply elem_of_seq in Hdv.
  destruct (decide (ks = [])) as [Hnil|Hnil]; [rewrite Hnil in Hdv; simpl in Hdv; lia|].
  apply max_list_elem_of in Hnil. apply elem_of_kept_keys in Hnil as (s & Hk & Hs).
  apply elem_of_kept_keys. apply (kept_keys_downward s); [done|lia].
Qed.

Lemma layer_index_group_nodes s :
  is_kept graph excluded s →
  layer_index (group_nodes_by_sorted_key_value graph excluded) s = Some (D s - 1).
Proof.
  intros Hk. rewrite group_nodes_unfold, sorted_keys_contiguous.
  apply layer_index_fmap_seq.
  - split; [by apply Hpos|].
    assert (D s ∈ (kept_nodes graph excluded).*2) as Hin
      by (apply elem_of_kept_keys; by exists s).
    apply max_list_elem_of_le in Hin. lia.
  - by apply elem_of_group_at.
  - intros d' Hd' Hin. apply elem_of_group_at in Hin as [_ Hin]. lia.
Qed.
End grouping.

(** ** The layering of an acyclic execution graph *)

Lemma extends_with_edges_closed {A} es (g g' : DiGraph A) :
  extends_with es g g' → edges_closed g → edges_closed g'.
Proof.
  intros (He & Hn & _) Hcl u v Huv. unfold has_edge in Huv.
  apply He in Huv as [Huv|Huv].
  - destruct (Hcl _ _ Huv). split; apply Hn; by left.
  - split; apply Hn; right; exists (u, v); naive_solver.
Qed.

Lemma tc_last_edge {X} (R : relation X) x y : tc R x y → ∃ w, R w y.
Proof. induction 1 as [x y Hxy|x w y _ _ IH]; [by exists x|done]. Qed.

Lemma tc_first_edge {X} (R : relation X) x y : tc R x y → ∃ w, R x w.
Proof. induction 1 as [x y Hxy|x w y Hxw _ _]; by eexists. Qed.

Section layering.
Context (g : DiGraph NodeCategory) (start : string).
Hypothesis Hacyc : acyclic g.
Hypothesis Hstart : ¬ is_step g start.

Local Abbreviation G := (construct_steps_flow_graph g start).
Local Abbreviation D := (distance_of (construct_steps_flow_graph g start) start).

Lemma steps_flow_graph_edge_inv u v :
  has_edge G u v → is_step g v ∧ (u = start ∨ step_edge g u v).
Proof.
  intros Huv. apply steps_flow_graph_has_edge in Huv as [Hv Hc].
  split; [done|]. destruct Hc as [(p & Hp & ->)|[_ ->]]; [|by left].
  destruct (decide (is_step g p)); [right|by left]. by split.
Qed.

Lemma step_edge_steps_flow_graph u v : step_edge g u v → has_edge G u v.
Proof.
  intros (Huv & Hu & Hv). apply steps_flow_graph_has_edge. split; [done|].
  left. exists u. split; [done|]. by rewrite decide_True.
Qed.

Lemma steps_flow_graph_node_names x :
  x ∈ node_names G ↔ x = start ∨ is_step g x.
Proof.
  destruct (construct_steps_flow_graph_extends g start) as (He & Hn & _).
  rewrite Hn, elem_of_node_names_add_node. unfold node_names at 1. simpl.
  split.
  - intros [[->|Hx]|([u v] & Huv & Hx)]; [by left|by apply elem_of_nil in Hx|].
    assert (has_edge G u v) as Hedge by (apply He; by right).
    apply steps_flow_graph_edge_inv in Hedge as [Hv [->|(_ & Hu & _)]];
      simpl in Hx; destruct Hx as [->| ->]; tauto.
  - intros [->|Hx]; [left; by left|]. right.
    destruct (steps_flow_graph_step_has_pred g start x Hx) as [u Hu].
    exists (u, x). split; [|by right].
    apply He in Hu as [Hu|Hu]; [|done].
    rewrite edges_add_node in Hu. by apply elem_of_nil in Hu.
Qed.

Lemma steps_flow_graph_NoDup : NoDup (node_names G).
Proof.
  destruct (construct_steps_flow_graph_extends g start) as (_ & _ & Hnd).
  apply Hnd, NoDup_node_names_add_node. constructor.
Qed.

Lemma steps_flow_graph_edges_closed : edges_closed G.
Proof.
  eapply extends_with_edges_closed;
    [apply construct_steps_flow_graph_extends|].
  intros u v Huv. unfold has_edge in Huv. rewrite edges_add_node in Huv.
  by apply elem_of_nil in Huv.
Qed.

Lemma steps_flow_graph_tc u v :
  tc (has_edge G) u v → u = start ∨ tc (step_edge g) u v.
Proof.
  induction 1 as [u v Huv|u w v Huw Hwv IH].
  - apply steps_flow_graph_edge_inv in Huv as [_ [->|Huv]]; [by left|].
    right. by apply tc_once.
  - apply steps_flow_graph_edge_inv in Huw as [Hw [->|Huw]]; [by left|].
    destruct IH as [->|IH]; [done|]. right. by eapply tc_l.
Qed.

Lemma step_edge_tc_has_edge u v : tc (step_edge g) u v → tc (has_edge g) u v.
Proof.
  induction 1 as [u v [Huv _]|u w v [Huw _] _ IH].
  - by apply tc_once.
  - by eapply tc_l.
Qed.

Lemma steps_flow_graph_acyclic : acyclic G.
Proof.
  intros v Hv.
  assert (is_step g v) as Hstep.
  { destruct (tc_last_edge _ _ _ Hv) as [w Hw].
    by apply steps_flow_graph_edge_inv in Hw as [? _]. }
  apply steps_flow_graph_tc in Hv as [->|Hv]; [done|].
  by apply (Hacyc v), step_edge_tc_has_edge.
Qed.

Lemma step_ne_start s : is_step g s → s ≠ start.
Proof. by intros Hs ->. Qed.

Lemma step_distance_pos s : is_step g s → (1 ≤ D s)%nat.
Proof.
  intros Hs. destruct (steps_flow_graph_step_has_pred g start s Hs) as [u Hu].
  pose proof (distance_of_edge G start u s steps_flow_graph_acyclic
                steps_flow_graph_edges_closed (step_ne_start s Hs) Hu).
  lia.
Qed.

Lemma step_distance_below s :
  is_step g s → (2 ≤ D s)%nat → ∃ t, step_edge g t s ∧ D s = S (D t).
Proof.
  intros Hs Hd.
  destruct (distance_of_attained G start s steps_flow_graph_acyclic
              steps_flow_graph_edges_closed (step_ne_start s Hs))
    as (u & Hu & Hdu).
  { destruct (steps_flow_graph_step_has_pred g start s Hs) as [u Hu].
    apply elem_of_predecessors in Hu. intros Hnil. rewrite Hnil in Hu.
    by apply elem_of_nil in Hu. }
  exists u. split; [|done].
  apply steps_flow_graph_edge_inv in Hu as [_ [->|Hu]]; [|done].
  rewrite distance_of_start in Hdu
    by (apply steps_flow_graph_acyclic || apply steps_flow_graph_edges_closed).
  lia.
Qed.

Lemma step_edge_distance a b : step_edge g a b → (D a < D b)%nat.
Proof.
  intros Hab. apply distance_of_edge.
  - apply steps_flow_graph_acyclic.
  - apply steps_flow_graph_edges_closed.
  - apply step_ne_start. by destruct Hab as (_ & _ & ?).
  - by apply step_edge_steps_flow_graph.
Qed.

Lemma step_ancestor_distance a b : step_ancestor g a b → (D a < D b)%nat.
Proof.
  induction 1 as [a b Hab|a c b Hac _ IH].
  - by apply step_edge_distance.
  - apply step_edge_distance in Hac. lia.
Qed.

Lemma step_ancestor_is_step a b : step_ancestor g a b → is_step g a ∧ is_step g b.
Proof.
  intros Hab. split.
  - by destruct (tc_first_edge _ _ _ Hab) as (w & _ & ? & _).
  - by destruct (tc_last_edge _ _ _ Hab) as (w & _ & _ & ?).
Qed.

Local Abbreviation assigned := (assign_max_distances_from_start G start).

Lemma assigned_distance x dv : (x, dv) ∈ nodes assigned → dv = D x.
Proof.
  unfold assign_max_distances_from_start. simpl.
  intros ([y []] & [= -> ->] & _)%list_elem_of_fmap. done.
Qed.

Lemma assigned_node_names : node_names assigned = node_names G.
Proof.
  unfold assign_max_distances_from_start, node_names. simpl.
  rewrite <- list_fmap_compose. by apply list_fmap_ext.
Qed.

Lemma assigned_is_kept s : is_kept assigned {[start]} s ↔ is_step g s.
Proof.
  unfold is_kept. rewrite assigned_node_names, steps_flow_graph_node_names.
  rewrite not_elem_of_singleton. split.
  - by intros [[->|Hs] Hne].
  - intros Hs. split; [by right|]. by apply step_ne_start.
Qed.

Lemma layering_layer_index s :
  is_step g s →
  layer_index (group_nodes_by_sorted_key_value assigned {[start]}) s
  = Some (D s - 1).
Proof.
  intros Hs. apply layer_index_group_nodes.
  - apply assigned_distance.
  - intros t Ht. by apply step_distance_pos, assigned_is_kept.
  - intros t Ht Hd. apply assigned_is_kept in Ht.
    destruct (step_distance_below t Ht Hd) as (u & Hu & Hdu).
    exists u. split; [|done]. apply assigned_is_kept. by destruct Hu as (_ & ? & _).
  - by apply assigned_is_kept.
Qed.

Lemma layering_partition :
  NoDup (mjoin (group_nodes_by_sorted_key_value assigned {[start]})) ∧
  ∀ s, s ∈ mjoin (group_nodes_by_sorted_key_value assigned {[start]})
       ↔ is_step g s.
Proof.
  split.
  - apply NoDup_group_nodes with (D := D); [apply assigned_distance|].
    rewrite assigned_node_names. apply steps_flow_graph_NoDup.
  - intros s. rewrite <- assigned_is_kept.
    apply elem_of_group_nodes with (D := D), assigned_distance.
Qed.

(** A step without step-ancestors is at distance 1. *)
Lemma no_ancestor_distance b :
  is_step g b → (∀ a, ¬ step_ancestor g a b) → D b = 1.
Proof.
  intros Hb Hnone. pose proof (step_distance_pos b Hb).
  destruct (decide (D b = 1)) as [|Hne]; [done|exfalso].
  destruct (step_distance_below b Hb) as (t & Ht & _); [lia|].
  by apply (Hnone t), tc_once.
Qed.

(** A step with a step-ancestor has one exactly one distance unit below. *)
Lemma ancestor_distance_attained a b :
  step_ancestor g a b → ∃ t, step_ancestor g t b ∧ D b = S (D t).
Proof.
  intros Hab. destruct (step_ancestor_is_step a b Hab) as [Ha Hb].
  pose proof (step_ancestor_distance a b Hab).
  pose proof (step_distance_pos a Ha).
  destruct (step_distance_below b Hb) as (t & Ht & Hdt); [lia|].
  exists t. split; [by apply tc_once|done].
Qed.
End layering.

(** A graph whose edges all go up along some ranking of the nodes is acyclic. *)
Lemma acyclic_by_rank {A} (g : DiGraph A) (rank : string → nat) :
  Forall (λ e : string * string, (rank e.1 < rank e.2)%nat) (edges g) → acyclic g.
Proof.
  intros Hrank.
  assert (∀ u v, tc (has_edge g) u v → (rank u < rank v)%nat) as Hup.
  { assert (∀ u v, has_edge g u v → (rank u < rank v)%nat) as Hedge
      by (intros u v Huv; by apply (proj1 (Forall_forall _ _) Hrank (u, v))).
    induction 1 as [u v Huv|u w v Huw _ IH]; [by apply Hedge|].
    apply Hedge in Huw. lia. }
  intros v Hv. apply Hup in Hv. lia.
Qed.

Example scenario_layering :
  establish_execution_order scenario_graph = [["A"; "B"]; ["C"]].
Proof. vm_compute. reflexivity. Qed.

(** Step-ancestry follows direct step-to-step edges only: a dependency that
    passes through a Data node puts no edge between the two steps in the
    step-flow graph, and both steps land in the first layer. *)
Example mediated_layering :
  establish_execution_order mediated_graph = [["A"; "B"]] ∧
  ¬ has_edge (construct_steps_flow_graph mediated_graph super_start_node) "A" "B".
Proof.
  split; [vm_compute; reflexivity|].
  apply (bool_decide_unpack _). vm_compute. exact I.
Qed.

Lemma scenario_acyclic : acyclic scenario_graph.
Proof.
  apply (acyclic_by_rank _ scenario_rank).
  apply (bool_decide_unpack _). vm_compute. exact I.
Qed.

Lemma scenario_start_not_step : ¬ is_step scenario_graph super_start_node.
Proof. apply (bool_decide_unpack _). vm_compute. exact I. Qed.

(** C1, as amended.  For an acyclic execution graph (no Step node carrying
    the reserved name of the synthetic source), the layering of
    [establish_execution_order] holds every Step node exactly once and
    nothing else; the layer index of a step is its longest-path distance from
    the synthetic source minus one: it is 0 for a step that no step reaches
    along direct step-to-step edges, and otherwise one more than the maximum
    layer index over the steps that reach it along one or more direct
    step-to-step edges ([step_ancestor]).  Ancestry through a Data node does
    not count: see [establish_execution_order_layering_counterexample]. *)
Theorem establish_execution_order_layering (g : DiGraph NodeCategory) :
  acyclic g → ¬ is_step g super_start_node →
  let layers := establish_execution_order g in
  (NoDup (mjoin layers) ∧ ∀ s, s ∈ mjoin layers ↔ is_step g s) ∧
  ∀ b, is_step g b →
    ∃ i, layer_index layers b = Some i ∧
         distance_of (construct_steps_flow_graph g super_start_node)
                     super_start_node b = S i ∧
         ((∀ a, ¬ step_ancestor g a b) → i = 0%nat) ∧
         (∀ a, step_ancestor g a b →
               ∃ j, layer_index layers a = Some j ∧ (S j ≤ i)%nat) ∧
         ((∃ a, step_ancestor g a b) →
          ∃ a j, step_ancestor g a b ∧ layer_index layers a = Some j ∧ i = S j).
Proof.
  intros Hacyc Hstart layers. unfold layers, establish_execution_order.
  split; [exact (layering_partition g _ Hstart)|].
  intros b Hb.
  pose proof (step_distance_pos g _ Hacyc Hstart b Hb) as Hpos.
  eexists. split; [by apply layering_layer_index|].
  split; [lia|]. split; [|split].
  - intros Hnone. rewrite (no_ancestor_distance g _ Hacyc Hstart b) by done. done.
  - intros a Hab. destruct (step_ancestor_is_step g a b Hab) as [Ha _].
    eexists. split; [by apply layering_layer_index|].
    pose proof (step_ancestor_distance g _ Hacyc Hstart a b Hab).
    pose proof (step_distance_pos g _ Hacyc Hstart a Ha). lia.
  - intros [a Hab].
    destruct (ancestor_distance_attained g _ Hacyc Hstart a b Hab) as (t & Ht & Hdt).
    destruct (step_ancestor_is_step g t b Ht) as [Hst _].
    exists t. eexists. split; [done|]. split; [by apply layering_layer_index|].
    pose proof (step_distance_pos g _ Hacyc Hstart t Hst). lia.
Qed.

Lemma establish_execution_order_layering_witness :
  acyclic scenario_graph ∧ ¬ is_step scenario_graph super_start_node ∧
  let layers := establish_execution_order scenario_graph in
  (NoDup (mjoin layers) ∧ ∀ s, s ∈ mjoin layers ↔ is_step scenario_graph s) ∧
  ∀ b, is_step scenario_graph b →
    ∃ i, layer_index layers b = Some i ∧
         distance_of (construct_steps_flow_graph scenario_graph super_start_node)
                     super_start_node b = S i ∧
         ((∀ a, ¬ step_ancestor scenario_graph a b) → i = 0%nat) ∧
         (∀ a, step_ancestor scenario_graph a b →
               ∃ j, layer_index layers a = Some j ∧ (S j ≤ i)%nat) ∧
         ((∃ a, step_ancestor scenario_graph a b) →
          ∃ a j, step_ancestor scenario_graph a b ∧
                 layer_index layers a = Some j ∧ i = S j).
Proof.
  split; [exact scenario_acyclic|]. split; [exact scenario_start_not_step|].
  exact (establish_execution_order_layering scenario_graph
           scenario_acyclic scenario_start_not_step).
Defined.

Lemma step_ancestor_graph_step_ancestor (g : DiGraph NodeCategory) (a b : string) :
  step_ancestor g a b → graph_step_ancestor g a b.
Proof.
  intros Hab. split; [|split].
  - by destruct (tc_first_edge _ _ _ Hab) as (w & _ & ? & _).
  - by destruct (tc_last_edge _ _ _ Hab) as (w & _ & _ & ?).
  - induction Hab as [a b [Hab _]|a c b [Hac _] _ IH].
    + by apply tc_once.
    + by eapply tc_l.
Qed.

Lemma mediated_acyclic : acyclic mediated_graph.
Proof.
  apply (acyclic_by_rank _ mediated_rank).
  apply (bool_decide_unpack _). vm_compute. exact I.
Qed.

Lemma mediated_start_not_step : ¬ is_step mediated_graph super_start_node.
Proof. apply (bool_decide_unpack _). vm_compute. exact I. Qed.

Lemma mediated_graph_step_ancestor : graph_step_ancestor mediated_graph "A" "B".
Proof.
  split; [|split].
  - apply (bool_decide_unpack _). vm_compute. exact I.
  - apply (bool_decide_unpack _). vm_compute. exact I.
  - apply tc_l with "D"; [|apply tc_once];
      apply (bool_decide_unpack _); vm_compute; exact I.
Qed.

(** C1, as stated, fails.  In [mediated_graph] the Step node A reaches the
    Step node B through the Data node D; the graph is acyclic and uses no
    reserved name.  Since D is not a Step node, B only gets an edge from the
    synthetic source, and A and B both land in layer 0: the layer index of B
    is not one more than the layer index of its step-ancestor A in the
    execution graph. *)
Lemma establish_execution_order_layering_counterexample :
  acyclic mediated_graph ∧
  ¬ is_step mediated_graph super_start_node ∧
  graph_step_ancestor mediated_graph "A" "B" ∧
  layer_index (establish_execution_order mediated_graph) "A" = Some 0%nat ∧
  layer_index (establish_execution_order mediated_graph) "B" = Some 0%nat ∧
  ¬ (∀ b, is_step mediated_graph b →
       ∃ i, layer_index (establish_execution_order mediated_graph) b = Some i ∧
            ((∀ a, ¬ graph_step_ancestor mediated_graph a b) → i = 0%nat) ∧
            (∀ a, graph_step_ancestor mediated_graph a b →
                  ∃ j, layer_index (establish_execution_order mediated_graph) a
                       = Some j ∧ (S j ≤ i)%nat) ∧
            ((∃ a, graph_step_ancestor mediated_graph a b) →
             ∃ a j, graph_step_ancestor mediated_graph a b ∧
                    layer_index (establish_execution_order mediated_graph) a
                    = Some j ∧ i = S j)).
Proof.
  assert (layer_index (establish_execution_order mediated_graph) "B"
          = Some 0%nat) as HB by (vm_compute; reflexivity).
  split; [exact mediated_acyclic|]. split; [exact mediated_start_not_step|].
  split; [exact mediated_graph_step_ancestor|].
  split; [vm_compute; reflexivity|]. split; [exact HB|].
  intros Hclaim.
  destruct (Hclaim "B" (proj1 (proj2 mediated_graph_step_ancestor)))
    as (i & Hi & _ & Hanc & _).
  rewrite HB in Hi. injection Hi as <-.
  destruct (Hanc "A" mediated_graph_step_ancestor) as (j & _ & Hj).
  lia.
Qed.

(** C2.  For an acyclic execution graph and a dependency edge between two
    Step nodes [a] and [b], the layer of [a] comes strictly before the layer
    of [b]. *)
Theorem establish_execution_order_respects_edges (g : DiGraph NodeCategory) (a b : string) :
  acyclic g → ¬ is_step g super_start_node →
  is_step g a → is_step g b → has_edge g a b →
  ∃ i j, layer_index (establish_execution_order g) a = Some i ∧
         layer_index (establish_execution_order g) b = Some j ∧
         (i < j)%nat.
Proof.
  intros Hacyc Hstart Ha Hb Hab. unfold establish_execution_order.
  do 2 eexists. split; [by apply layering_layer_index|].
  split; [by apply layering_layer_index|].
  pose proof (step_edge_distance g _ Hacyc Hstart a b (conj Hab (conj Ha Hb))).
  pose proof (step_distance_pos g _ Hacyc Hstart a Ha). lia.
Qed.

Lemma establish_execution_order_respects_edges_witness :
  acyclic scenario_graph ∧ ¬ is_step scenario_graph super_start_node ∧
  is_step scenario_graph "A" ∧ is_step scenario_graph "C" ∧
  has_edge scenario_graph "A" "C" ∧
  ∃ i j, layer_index (establish_execution_order scenario_graph) "A" = Some i ∧
         layer_index (establish_execution_order scenario_graph) "C" = Some j ∧
         (i < j)%nat.
Proof.
  assert (is_step scenario_graph "A") as Ha
    by (apply (bool_decide_unpack _); vm_compute; exact I).
  assert (is_step scenario_graph "C") as Hc
    by (apply (bool_decide_unpack _); vm_compute; exact I).
  assert (has_edge scenario_graph "A" "C") as Hac
    by (apply (bool_decide_unpack _); vm_compute; exact I).
  repeat (split; [done || exact scenario_acyclic || exact scenario_start_not_step|]).
  exact (establish_execution_order_respects_edges scenario_graph "A" "C"
           scenario_acyclic scenario_start_not_step Ha Hc Hac).
Defined.

(** ** The coordinator *)

Lemma filter_not_discarded_nil (discarded : gset string) (layer : list string) :
  filter (λ e, e ∉ discarded) layer = [] ↔ fully_discarded discarded layer.
Proof.
  unfold fully_discarded. split.
  - intros Hnil e He. destruct (decide (e ∈ discarded)) as [|Hne]; [done|].
    exfalso. by apply (filter_nil_not_elem_of _ _ e Hnil Hne).
  - intros Hall. induction layer as [|x layer IH]; [done|].
    rewrite filter_cons_False.
    + apply IH. intros e He. apply Hall. by right.
    + intros Hx. apply Hx, Hall. by left.
Qed.

Lemma next_steps_loop_outcome fuel order discarded ptr :
  (length order - ptr ≤ fuel)%nat →
  loop_outcome order discarded ptr (next_steps_loop fuel order discarded ptr).
Proof.
  assert (∀ p, (length order ≤ p)%nat →
               loop_outcome order discarded p (None, p)) as Hdone.
  { intros p Hp. split; simpl; [lia|]. intros k' layer' Hk' Hl.
    apply lookup_lt_Some in Hl. lia. }
  revert ptr. induction fuel as [|fuel IH]; intros ptr Hfuel; simpl.
  { apply Hdone. lia. }
  destruct (bool_decide_reflect (ptr < length order)%nat) as [Hlt|Hge];
    [|apply Hdone; lia].
  destruct (lookup_lt_is_Some_2 order ptr Hlt) as [layer Hlayer].
  rewrite Hlayer. simpl.
  destruct (bool_decide_reflect
              (length (filter (λ e, e ∉ discarded) layer) = 0%nat)) as [Hnil|Hne].
  - apply length_zero_iff_nil, filter_not_discarded_nil in Hnil.
    specialize (IH (S ptr) ltac:(lia)). unfold loop_outcome in *.
    destruct (next_steps_loop fuel order discarded (S ptr)) as [[steps|] ptr'];
      simpl in *.
    + destruct IH as (k & layer' & Hk & Hl & Hsteps & Hnn & Hptr & Hskip).
      exists k, layer'. repeat split; try done; [lia|].
      intros k' layer'' Hk' Hl'. destruct (decide (k' = ptr)) as [->|].
      * by simplify_eq.
      * apply (Hskip k'); [lia|done].
    + destruct IH as [Hptr Hskip]. split; [lia|].
      intros k' layer'' Hk' Hl'. destruct (decide (k' = ptr)) as [->|].
      * by simplify_eq.
      * apply (Hskip k'); [lia|done].
  - exists ptr, layer. repeat split; try done.
    + intros Hnil. apply Hne. by rewrite Hnil.
    + intros k' layer' Hk'. lia.
Qed.

(** More fuel than the remaining layers changes nothing. *)
Lemma next_steps_loop_fuel fuel order discarded ptr :
  (length order - ptr ≤ fuel)%nat →
  next_steps_loop fuel order discarded ptr
  = next_steps_loop (length order - ptr) order discarded ptr.
Proof.
  revert ptr. induction fuel as [|fuel IH]; intros ptr Hfuel.
  - by replace (length order - ptr)%nat with 0%nat by lia.
  - destruct (decide (ptr < length order)%nat) as [Hlt|Hge].
    + replace (length order - ptr)%nat with (S (length order - S ptr)) by lia.
      simpl. rewrite bool_decide_eq_true_2 by done.
      destruct (bool_decide _); [|done]. apply IH. lia.
    + replace (length order - ptr)%nat with 0%nat by lia.
      simpl. by rewrite bool_decide_eq_false_2.
Qed.

(** The state and the result of one call, spelled out. *)
Lemma get_steps_to_execute_next_unfold self steps_to_discard :
  get_steps_to_execute_next self steps_to_discard =
  let r := next_steps_loop (length (layers_of self) - pointer_of self)
             (layers_of self) (_discarded_steps self ∪ steps_to_discard)
             (pointer_of self) in
  (r.1, mkCoordinator (_execution_graph self)
          (_discarded_steps self ∪ steps_to_discard)
          (Some (layers_of self)) r.2).
Proof.
  unfold get_steps_to_execute_next, layers_of, pointer_of.
  destruct (__execution_order self); simpl; by destruct (next_steps_loop _ _ _ _).
Qed.

Lemma get_steps_to_execute_next_layers self d :
  layers_of (get_steps_to_execute_next self d).2 = layers_of self.
Proof. by rewrite get_steps_to_execute_next_unfold. Qed.

Lemma get_steps_to_execute_next_pointer self d :
  pointer_of (get_steps_to_execute_next self d).2
  = __execution_pointer (get_steps_to_execute_next self d).2.
Proof. by rewrite get_steps_to_execute_next_unfold. Qed.

Lemma get_steps_to_execute_next_discarded self d :
  _discarded_steps (get_steps_to_execute_next self d).2 = _discarded_steps self ∪ d.
Proof. by rewrite get_steps_to_execute_next_unfold. Qed.

Lemma get_steps_to_execute_next_outcome self d :
  loop_outcome (layers_of self) (_discarded_steps self ∪ d) (pointer_of self)
    ((get_steps_to_execute_next self d).1,
     __execution_pointer (get_steps_to_execute_next self d).2).
Proof.
  rewrite get_steps_to_execute_next_unfold. simpl.
  pose proof (next_steps_loop_outcome
    (length (layers_of self) - pointer_of self) (layers_of self)
    (_discarded_steps self ∪ d) (pointer_of self) ltac:(lia)) as H.
  by destruct (next_steps_loop _ _ _ _).
Qed.

(** C4.  A call merges its argument into the discard set, passes over every
    pending layer whose steps are all discarded, and returns the
    non-discarded steps of the first pending layer that has one; what it
    returns is never an empty list.  When every pending layer is fully
    discarded (or none is left) it returns the sentinel. *)
Theorem get_steps_to_execute_next_skips_discarded_layers :
  ∀ (self : ParallelStepExecutionCoordinator) (steps_to_discard : gset string),
    let r := get_steps_to_execute_next self steps_to_discard in
    let discarded := _discarded_steps self ∪ steps_to_discard in
    _discarded_steps r.2 = discarded ∧
    layers_of r.2 = layers_of self ∧
    match r.1 with
    | Some steps =>
        steps ≠ [] ∧
        ∃ k layer,
          (pointer_of self ≤ k)%nat ∧ layers_of self !! k = Some layer ∧
          steps = filter (λ e, e ∉ discarded) layer ∧
          pointer_of r.2 = S k ∧
          ∀ k' layer', (pointer_of self ≤ k' < k)%nat →
                       layers_of self !! k' = Some layer' →
                       fully_discarded discarded layer'
    | None =>
        ∀ k' layer', (pointer_of self ≤ k')%nat →
                     layers_of self !! k' = Some layer' →
                     fully_discarded discarded layer'
    end.
Proof.
  intros self d r discarded. unfold r, discarded.
  split; [apply get_steps_to_execute_next_discarded|].
  split; [apply get_steps_to_execute_next_layers|].
  pose proof (get_steps_to_execute_next_outcome self d) as Hout.
  unfold loop_outcome in Hout. simpl in Hout.
  rewrite get_steps_to_execute_next_pointer.
  destruct ((get_steps_to_execute_next self d).1) as [steps|].
  - destruct Hout as (k & layer & Hk & Hl & Hsteps & Hne & Hptr & Hskip).
    split; [done|]. by exists k, layer.
  - by destruct Hout as [_ Hskip].
Qed.

Example coordinator_scenario_run :
  run_calls (coordinator_init scenario_graph) [∅; ∅; ∅]
  = [(Some ["A"; "B"], 1%nat); (Some ["C"], 2%nat); (None, 2%nat)].
Proof. vm_compute. reflexivity. Qed.

Example coordinator_scenario_discard_A :
  (get_steps_to_execute_next (coordinator_init scenario_graph) {["A"]}).1
  = Some ["B"].
Proof. vm_compute. reflexivity. Qed.

Example coordinator_scenario_skip_layer :
  run_calls (coordinator_init scenario_graph) [{["A"; "B"]}; ∅]
  = [(Some ["C"], 2%nat); (None, 2%nat)].
Proof. vm_compute. reflexivity. Qed.

(** *** Runs *)

Lemma get_steps_to_execute_next_forward self d :
  let r := get_steps_to_execute_next self d in
  (pointer_of self ≤ pointer_of r.2)%nat ∧
  ∀ steps, r.1 = Some steps →
    (pointer_of self < pointer_of r.2)%nat ∧
    ∃ layer, layers_of self !! (pointer_of r.2 - 1)%nat = Some layer ∧
             steps = filter (λ e, e ∉ _discarded_steps self ∪ d) layer.
Proof.
  simpl. pose proof (get_steps_to_execute_next_outcome self d) as Hout.
  unfold loop_outcome in Hout. simpl in Hout.
  rewrite get_steps_to_execute_next_pointer.
  destruct ((get_steps_to_execute_next self d).1) as [steps|].
  - destruct Hout as (k & layer & Hk & Hl & Hsteps & Hne & Hptr & Hskip).
    rewrite Hptr. split; [lia|]. intros ? [= <-]. split; [lia|].
    exists layer. split; [|done]. by replace (S k - 1)%nat with k by lia.
  - destruct Hout as [Hptr _]. split; [lia|done].
Qed.

(** Once the pointer is past the last layer, a call returns the sentinel and
    leaves the pointer there. *)
Lemma get_steps_to_execute_next_exhausted self d :
  (length (layers_of self) ≤ pointer_of self)%nat →
  (get_steps_to_execute_next self d).1 = None ∧
  (length (layers_of (get_steps_to_execute_next self d).2)
   ≤ pointer_of (get_steps_to_execute_next self d).2)%nat.
Proof.
  intros Hex. pose proof (get_steps_to_execute_next_outcome self d) as Hout.
  unfold loop_outcome in Hout. simpl in Hout.
  rewrite get_steps_to_execute_next_pointer, get_steps_to_execute_next_layers.
  destruct ((get_steps_to_execute_next self d).1) as [steps|].
  - destruct Hout as (k & layer & Hk & Hl & _). apply lookup_lt_Some in Hl. lia.
  - destruct Hout as [Hptr _]. split; [done|lia].
Qed.

(** A call that returns the sentinel leaves the pointer past the last layer. *)
Lemma get_steps_to_execute_next_None self d :
  (get_steps_to_execute_next self d).1 = None →
  (length (layers_of (get_steps_to_execute_next self d).2)
   ≤ pointer_of (get_steps_to_execute_next self d).2)%nat.
Proof.
  intros Hnone. pose proof (get_steps_to_execute_next_outcome self d) as Hout.
  unfold loop_outcome in Hout. simpl in Hout.
  rewrite get_steps_to_execute_next_pointer, get_steps_to_execute_next_layers.
  rewrite Hnone in Hout. destruct Hout as [Hptr _]. lia.
Qed.

Lemma run_calls_cons self d rest :
  run_calls self (d :: rest) =
  ((get_steps_to_execute_next self d).1,
   pointer_of (get_steps_to_execute_next self d).2)
  :: run_calls (get_steps_to_execute_next self d).2 rest.
Proof.
  rewrite get_steps_to_execute_next_pointer. simpl.
  by destruct (get_steps_to_execute_next self d).
Qed.

Lemma run_calls_exhausted self calls :
  (length (layers_of self) ≤ pointer_of self)%nat →
  ∀ j rj pj, run_calls self calls !! j = Some (rj, pj) → rj = None.
Proof.
  revert self. induction calls as [|d rest IH]; intros self Hex j rj pj Hj;
    [done|].
  rewrite run_calls_cons in Hj.
  destruct (get_steps_to_execute_next_exhausted self d Hex) as [Hnone Hex'].
  destruct j as [|j]; simpl in Hj.
  - by simplify_eq.
  - by eapply IH.
Qed.

Lemma run_calls_forward self calls j rj pj :
  run_calls self calls !! j = Some (rj, pj) →
  (pointer_of self ≤ pj)%nat ∧
  ∀ steps, rj = Some steps →
    (pointer_of self < pj)%nat ∧
    ∃ layer, layers_of self !! (pj - 1)%nat = Some layer ∧ steps ⊆ layer.
Proof.
  revert self j. induction calls as [|d rest IH]; intros self j Hj; [done|].
  rewrite run_calls_cons in Hj.
  destruct (get_steps_to_execute_next_forward self d) as [Hle Hsome].
  destruct j as [|j]; simpl in Hj.
  - injection Hj as <- <-. split; [done|]. intros steps Hsteps.
    destruct (Hsome steps Hsteps) as (Hlt & layer & Hl & ->).
    split; [done|]. exists layer. split; [done|].
    apply list_subseteq_filter.
  - destruct (IH _ _ Hj) as [Hle' Hsome'].
    rewrite get_steps_to_execute_next_layers in Hsome'.
    split; [lia|]. intros steps Hsteps.
    destruct (Hsome' steps Hsteps) as (Hlt & Hlayer). split; [lia|done].
Qed.

(** C5.  Along any run of calls the pointer only moves forward: a call that
    returns steps returns (part of) the layer just below the pointer it
    leaves, and that pointer is strictly beyond the pointer left by every
    earlier call, so no layer is returned twice or revisited.  After a call
    has returned the sentinel every later call returns it too; and on a
    coordinator whose layers are exhausted every call returns the sentinel,
    whatever the discard arguments. *)
Theorem get_steps_to_execute_next_forward_only :
  ∀ (self : ParallelStepExecutionCoordinator) (calls : list (gset string)),
    (∀ j rj pj,
       run_calls self calls !! j = Some (rj, pj) →
       (pointer_of self ≤ pj)%nat ∧
       ∀ steps, rj = Some steps →
         (pointer_of self < pj)%nat ∧
         ∃ layer, layers_of self !! (pj - 1)%nat = Some layer ∧ steps ⊆ layer)
    ∧ (∀ i j ri pi rj pj,
         (i < j)%nat →
         run_calls self calls !! i = Some (ri, pi) →
         run_calls self calls !! j = Some (rj, pj) →
         (pi ≤ pj)%nat ∧ (is_Some rj → (pi < pj)%nat) ∧ (ri = None → rj = None))
    ∧ ((length (layers_of self) ≤ pointer_of self)%nat →
       ∀ j rj pj, run_calls self calls !! j = Some (rj, pj) → rj = None).
Proof.
  intros self calls. split; [intros j rj pj; apply run_calls_forward|].
  split; [|apply run_calls_exhausted].
  revert self. induction calls as [|d rest IH];
    intros self i j ri pi rj pj Hij Hi Hj; [done|].
  rewrite run_calls_cons in Hi, Hj.
  destruct j as [|j]; [lia|]. simpl in Hj.
  destruct i as [|i]; simpl in Hi.
  - injection Hi as <- <-.
    destruct (run_calls_forward _ _ _ _ _ Hj) as [Hle Hsome].
    split; [done|]. split.
    + intros [steps ->]. by destruct (Hsome steps eq_refl).
    + intros Hnone. apply get_steps_to_execute_next_None in Hnone.
      by eapply run_calls_exhausted.
  - eapply (IH _ i j); [lia|exact Hi|exact Hj].
Qed.

(** *** Discarding *)

Lemma run_calls_not_discarded self calls j steps pj n :
  run_calls self calls !! j = Some (Some steps, pj) → n ∈ steps →
  (n ∉ _discarded_steps self) ∧
  (∀ i di, (i ≤ j)%nat → calls !! i = Some di → n ∉ di).
Proof.
  revert self j. induction calls as [|d rest IH]; intros self j Hj Hn; [done|].
  rewrite run_calls_cons in Hj. destruct j as [|j]; simpl in Hj.
  - injection Hj as Hr _.
    destruct (get_steps_to_execute_next_forward self d) as [_ Hsome].
    destruct (Hsome steps Hr) as (_ & layer & _ & ->).
    apply list_elem_of_filter in Hn as [Hn _].
    split; [set_solver|]. intros i di Hi Hdi.
    replace i with 0%nat in Hdi by lia. simpl in Hdi. set_solver.
  - destruct (IH _ _ Hj Hn) as [Hdisc Hlater].
    rewrite get_steps_to_execute_next_discarded in Hdisc.
    split; [set_solver|]. intros i di Hi Hdi. destruct i as [|i]; simpl in Hdi.
    + set_solver.
    + apply (Hlater i); [lia|done].
Qed.

(** C6.  Discarding is monotonic: a name given in the discard argument of
    some call is in no list returned by that call or by a later one. *)
Theorem discarded_steps_never_returned
    (self : ParallelStepExecutionCoordinator) (calls : list (gset string))
    (i j : nat) (di : gset string) (steps : list string) (pj : nat) (n : string) :
  (i ≤ j)%nat → calls !! i = Some di → n ∈ di →
  run_calls self calls !! j = Some (Some steps, pj) →
  n ∉ steps.
Proof.
  intros Hij Hdi Hn Hj Hin.
  destruct (run_calls_not_discarded _ _ _ _ _ _ Hj Hin) as [_ Hnot].
  by apply (Hnot i di).
Qed.

Lemma discarded_steps_never_returned_witness :
  (0 ≤ 0)%nat ∧
  [{["A"]}; ∅] !! 0%nat = Some ({["A"]} : gset string) ∧
  "A" ∈ ({["A"]} : gset string) ∧
  run_calls (coordinator_init scenario_graph) [{["A"]}; ∅] !! 0%nat
  = Some (Some ["B"], 1%nat) ∧
  "A" ∉ ["B"].
Proof.
  assert (run_calls (coordinator_init scenario_graph) [{["A"]}; ∅] !! 0%nat
          = Some (Some ["B"], 1%nat)) as Hrun by (vm_compute; reflexivity).
  assert ("A" ∈ ({["A"]} : gset string)) as HA
    by (apply (bool_decide_unpack _); vm_compute; exact I).
  split; [lia|]. split; [reflexivity|]. split; [exact HA|].
  split; [exact Hrun|].
  exact (discarded_steps_never_returned (coordinator_init scenario_graph)
           [{["A"]}; ∅] 0 0 {["A"]} ["B"] 1 "A"
           (le_n 0) eq_refl HA Hrun).
Defined.

(** *** Names that are in no layer *)

Lemma filter_ext_elem_of {X} (P Q : X → Prop)
    `{!∀ x, Decision (P x), !∀ x, Decision (Q x)} (l : list X) :
  (∀ x, x ∈ l → P x ↔ Q x) → filter P l = filter Q l.
Proof.
  induction l as [|x l IH]; intros Hext; [done|].
  rewrite !filter_cons.
  assert (filter P l = filter Q l) as -> by (apply IH; intros; apply Hext; by right).
  destruct (decide (P x)) as [HP|HP], (decide (Q x)) as [HQ|HQ]; try done;
    exfalso; apply (Hext x) in HP || apply (Hext x) in HQ; try done; by left.
Qed.

Lemma next_steps_loop_inert fuel order (D X : gset string) ptr :
  inert order X →
  next_steps_loop fuel order (D ∪ X) ptr = next_steps_loop fuel order D ptr.
Proof.
  intros HX. revert ptr. induction fuel as [|fuel IH]; intros ptr; [done|].
  simpl. destruct (bool_decide_reflect (ptr < length order)%nat) as [Hlt|]; [|done].
  destruct (lookup_lt_is_Some_2 order ptr Hlt) as [layer Hlayer].
  rewrite Hlayer. simpl.
  assert (filter (λ e, e ∉ D ∪ X) layer = filter (λ e, e ∉ D) layer) as ->.
  { apply filter_ext_elem_of. intros e He.
    assert (e ∉ X) as HeX.
    { intros HeX. apply (HX e layer HeX); [by eapply list_elem_of_lookup_2|done]. }
    set_solver. }
  by rewrite IH.
Qed.

Lemma get_steps_to_execute_next_inert self1 self2 (d e : gset string) :
  differ_by_inert self1 self2 → inert (layers_of self2) e →
  (get_steps_to_execute_next self1 (d ∪ e)).1
  = (get_steps_to_execute_next self2 d).1 ∧
  differ_by_inert (get_steps_to_execute_next self1 (d ∪ e)).2
                  (get_steps_to_execute_next self2 d).2.
Proof.
  intros (Hg & Ho & Hp & X & HX & HD) He.
  assert (layers_of self1 = layers_of self2) as Hl
    by (unfold layers_of; by rewrite Ho, Hg).
  assert (pointer_of self1 = pointer_of self2) as Hptr
    by (unfold pointer_of; by rewrite Ho, Hp).
  assert (inert (layers_of self2) (X ∪ e)) as HXe.
  { intros n layer [Hn|Hn]%elem_of_union; [by apply HX|by apply He]. }
  assert (_discarded_steps self1 ∪ (d ∪ e)
          = (_discarded_steps self2 ∪ d) ∪ (X ∪ e)) as HD'
    by (rewrite HD; set_solver).
  rewrite !get_steps_to_execute_next_unfold. simpl.
  rewrite Hl, Hptr, HD', next_steps_loop_inert by done.
  split; [done|]. unfold differ_by_inert. simpl. rewrite Hg.
  repeat split; try done. exists (X ∪ e). split; [|done].
  by unfold layers_of.
Qed.

Lemma run_calls_inert self1 self2 (calls : list (gset string * gset string)) :
  differ_by_inert self1 self2 →
  (∀ c, c ∈ calls → inert (layers_of self2) c.2) →
  run_calls self1 ((λ c, c.1 ∪ c.2) <$> calls) = run_calls self2 (fst <$> calls).
Proof.
  revert self1 self2. induction calls as [|[d e] rest IH];
    intros self1 self2 Hrel Hinert; [done|].
  rewrite !fmap_cons, !run_calls_cons. simpl.
  destruct (get_steps_to_execute_next_inert self1 self2 d e Hrel) as [Hres Hrel'].
  { apply (Hinert (d, e)). by left. }
  f_equal.
  - f_equal; [done|]. destruct Hrel' as (_ & Ho & Hp & _).
    unfold pointer_of. by rewrite Ho, Hp.
  - apply IH; [done|]. intros c Hc.
    rewrite get_steps_to_execute_next_layers. apply Hinert. by right.
Qed.

(** C7.  Names that occur in no layer are inert: adding such names to the
    discard arguments of a run changes no returned value (and the model of
    the call has no failure to raise). *)
Theorem unknown_discard_names_are_inert
    (self : ParallelStepExecutionCoordinator)
    (calls : list (gset string * gset string)) :
  (∀ c n layer, c ∈ calls → n ∈ c.2 → layer ∈ layers_of self → n ∉ layer) →
  run_calls self ((λ c, c.1 ∪ c.2) <$> calls) = run_calls self (fst <$> calls).
Proof.
  intros Hinert. apply run_calls_inert.
  - repeat split. exists ∅. split; [|set_solver]. intros n layer Hn. set_solver.
  - intros c Hc n layer Hn Hl. by eapply Hinert.
Qed.

Lemma scenario_inert_calls_inert :
  ∀ c n layer,
    c ∈ scenario_inert_calls → n ∈ c.2 →
    layer ∈ layers_of (coordinator_init scenario_graph) → n ∉ layer.
Proof.
  intros c n layer Hc Hn Hl.
  assert (layers_of (coordinator_init scenario_graph) = [["A"; "B"]; ["C"]])
    as Heq by (vm_compute; reflexivity).
  rewrite Heq in Hl. unfold scenario_inert_calls in Hc.
  assert (n = "ghost" ∨ n = "phantom") as Hcases.
  { apply elem_of_cons in Hc as [->|Hc];
      [left; simpl in Hn; by apply elem_of_singleton in Hn|].
    apply elem_of_cons in Hc as [->|Hc];
      [right; simpl in Hn; by apply elem_of_singleton in Hn|].
    apply elem_of_nil in Hc. destruct Hc. }
  clear Hc Hn Heq.
  apply elem_of_cons in Hl as [->|Hl].
  { destruct Hcases as [-> | ->]; apply (bool_decide_unpack _); vm_compute; exact I. }
  apply elem_of_cons in Hl as [->|Hl].
  { destruct Hcases as [-> | ->]; apply (bool_decide_unpack _); vm_compute; exact I. }
  apply elem_of_nil in Hl. destruct Hl.
Qed.

Lemma unknown_discard_names_are_inert_witness :
  (∀ c n layer,
     c ∈ scenario_inert_calls → n ∈ c.2 →
     layer ∈ layers_of (coordinator_init scenario_graph) → n ∉ layer) ∧
  run_calls (coordinator_init scenario_graph)
    ((λ c, c.1 ∪ c.2) <$> scenario_inert_calls)
  = run_calls (coordinator_init scenario_graph) (fst <$> scenario_inert_calls).
Proof.
  split; [exact scenario_inert_calls_inert|].
  exact (unknown_discard_names_are_inert (coordinator_init scenario_graph)
           scenario_inert_calls scenario_inert_calls_inert).
Defined.

Example scenario_inert_calls_run :
  run_calls (coordinator_init scenario_graph)
    ((λ c, c.1 ∪ c.2) <$> scenario_inert_calls)
  = [(Some ["A"; "B"], 1%nat); (Some ["C"], 2%nat)].
Proof. vm_compute. reflexivity. Qed.

(** ** The branching manager *)

Lemma perform_unfold op self :
  perform op self =
  if bool_decide (registration_branch op ∈ dom (_masks self))
  then (inl (DuplicateRegistration (registration_branch op)), self)
  else (inr (),
        mkBranchingManager
          (<[registration_branch op := registration_mask op]> (_masks self))
          (<[registration_branch op := negb (isinstance_bool (registration_mask op))]>
             (_batch_compatibility self))).
Proof.
  destruct op as [b m|b m]; simpl;
    unfold register_batch_oriented_mask, register_non_batch_mask;
    unfold mbind, Call_bind, get_self; simpl;
    by destruct (bool_decide _).
Qed.

Lemma get_mask_unfold branch self :
  get_mask branch self =
  (match _masks self !! branch with
   | Some mask => inr mask
   | None => inl (UnknownBranch branch)
   end, self).
Proof.
  unfold get_mask, mbind, Call_bind, get_self. simpl.
  by destruct (_masks self !! branch).
Qed.

Lemma is_execution_branch_batch_oriented_unfold branch self :
  is_execution_branch_batch_oriented branch self =
  (match _batch_compatibility self !! branch with
   | Some b => inr b
   | None => inl (UnknownBranch branch)
   end, self).
Proof.
  unfold is_execution_branch_batch_oriented, mbind, Call_bind, get_self. simpl.
  by destruct (_batch_compatibility self !! branch).
Qed.

Lemma consistent_new masks : consistent (BranchingManager_new masks).
Proof. reflexivity. Qed.

Lemma consistent_perform op self : consistent self → consistent (perform op self).2.
Proof.
  intros Hc. rewrite perform_unfold. destruct (bool_decide _); [done|].
  unfold consistent in *. simpl. by rewrite Hc, fmap_insert.
Qed.

Lemma after_snoc ops op self :
  after (ops ++ [op]) self = (perform op (after ops self)).2.
Proof. unfold after. by rewrite foldl_snoc. Qed.

Lemma consistent_after ops self : consistent self → consistent (after ops self).
Proof.
  intros Hc. induction ops as [|op ops IH] using rev_ind; [done|].
  rewrite after_snoc. by apply consistent_perform.
Qed.

Lemma perform_lookup_preserved op self branch mask :
  _masks self !! branch = Some mask →
  _masks (perform op self).2 !! branch = Some mask.
Proof.
  intros Hm. rewrite perform_unfold.
  destruct (bool_decide_reflect (registration_branch op ∈ dom (_masks self)))
    as [Hin|Hnin]; [done|]. simpl.
  rewrite lookup_insert_ne; [done|]. intros Heq. apply Hnin.
  rewrite Heq. apply elem_of_dom. by eexists.
Qed.

Lemma after_lookup_preserved ops self branch mask :
  _masks self !! branch = Some mask →
  _masks (after ops self) !! branch = Some mask.
Proof.
  intros Hm. induction ops as [|op ops IH] using rev_ind; [done|].
  rewrite after_snoc. by apply perform_lookup_preserved.
Qed.

Lemma perform_dom op self :
  dom (_masks (perform op self).2) = dom (_masks self) ∪ {[registration_branch op]}.
Proof.
  rewrite perform_unfold.
  destruct (bool_decide_reflect (registration_branch op ∈ dom (_masks self)))
    as [Hin|Hnin]; simpl; [set_solver|].
  rewrite dom_insert_L. set_solver.
Qed.

Lemma after_dom ops self branch :
  branch ∈ dom (_masks (after ops self)) ↔
  branch ∈ dom (_masks self) ∨ branch ∈ registration_branch <$> ops.
Proof.
  induction ops as [|op ops IH] using rev_ind.
  - simpl. split; [by left|]. intros [?|Hin]; [done|]. by apply elem_of_nil in Hin.
  - rewrite after_snoc, perform_dom, elem_of_union, IH, fmap_app, elem_of_app.
    simpl. rewrite elem_of_singleton, list_elem_of_singleton. tauto.
Qed.

Lemma perform_fresh op self :
  registration_branch op ∉ dom (_masks self) →
  (perform op self).1 = inr () ∧
  _masks (perform op self).2 !! registration_branch op = Some (registration_mask op).
Proof.
  intros Hnin. rewrite perform_unfold, bool_decide_eq_false_2 by done.
  simpl. by rewrite lookup_insert_eq.
Qed.

Lemma perform_duplicate op self :
  registration_branch op ∈ dom (_masks self) →
  perform op self = (inl (DuplicateRegistration (registration_branch op)), self).
Proof. intros Hin. by rewrite perform_unfold, bool_decide_eq_true_2. Qed.

Lemma after_init_registered ops branch :
  branch ∈ dom (_masks (after ops BranchingManager_init)) ↔
  branch ∈ registration_branch <$> ops.
Proof.
  rewrite after_dom. simpl. rewrite dom_empty_L. set_solver.
Qed.

Lemma consistent_lookup self branch :
  consistent self →
  _batch_compatibility self !! branch
  = (λ mask, negb (isinstance_bool mask)) <$> (_masks self !! branch).
Proof. intros ->. apply lookup_fmap. Qed.

Lemma after_first_registration ops1 op ops2 self :
  registration_branch op ∉ dom (_masks self) →
  registration_branch op ∉ registration_branch <$> ops1 →
  _masks (after (ops1 ++ op :: ops2)%list self) !! registration_branch op
  = Some (registration_mask op).
Proof.
  intros Hdom Hops. unfold after. rewrite foldl_app. simpl.
  apply after_lookup_preserved, perform_fresh.
  fold (after ops1 self). rewrite after_dom. tauto.
Qed.

(** C8.  On a manager started from [init()] a branch counts as registered
    once a registration call for it has been made.  A registration of either
    kind succeeds exactly when the branch is not registered, and otherwise
    fails with DuplicateRegistration; after a successful registration
    [get_mask] returns exactly the registered value and any further
    registration for the branch fails; [get_mask] and
    [is_execution_branch_batch_oriented] fail with UnknownBranch exactly on
    branches that are not registered; and [get_mask] keeps returning the
    value of the first registration. *)
Theorem branching_manager_register_then_query :
  ∀ (ops : list Registration) (branch : string),
    let self := after ops BranchingManager_init in
    let registered := branch ∈ registration_branch <$> ops in
    (∀ op, registration_branch op = branch →
       ((perform op self).1 = inr () ↔ ¬ registered) ∧
       (registered →
        perform op self = (inl (DuplicateRegistration branch), self)) ∧
       (¬ registered →
        (get_mask branch (perform op self).2).1 = inr (registration_mask op) ∧
        ∀ op', registration_branch op' = branch →
               (perform op' (perform op self).2).1
               = inl (DuplicateRegistration branch)))
    ∧ (¬ registered →
       (get_mask branch self).1 = inl (UnknownBranch branch) ∧
       (is_execution_branch_batch_oriented branch self).1
       = inl (UnknownBranch branch))
    ∧ (registered →
       (∃ mask, (get_mask branch self).1 = inr mask) ∧
       (∃ b, (is_execution_branch_batch_oriented branch self).1 = inr b))
    ∧ (∀ ops1 op ops2,
         ops = (ops1 ++ op :: ops2)%list → registration_branch op = branch →
         branch ∉ registration_branch <$> ops1 →
         (get_mask branch self).1 = inr (registration_mask op)).
Proof.
  intros ops branch self registered.
  assert (branch ∈ dom (_masks self) ↔ registered) as Hreg
    by apply after_init_registered.
  assert (consistent self) as Hcons
    by apply consistent_after, consistent_new.
  split; [|split; [|split]].
  - intros op <-. split; [|split].
    + rewrite perform_unfold.
      destruct (bool_decide_reflect
                  (registration_branch op ∈ dom (_masks self))) as [Hin|Hnin];
        simpl.
      * split; [done|]. intros Hnot. exfalso. apply Hnot, Hreg, Hin.
      * split; [|done]. intros _ Hr. apply Hnin, Hreg, Hr.
    + intros Hr. apply perform_duplicate. tauto.
    + intros Hnr. destruct (perform_fresh op self) as [_ Hlook]; [tauto|].
      split.
      * by rewrite get_mask_unfold, Hlook.
      * intros op' Heq. rewrite perform_duplicate; [by rewrite Heq|].
        rewrite Heq. apply elem_of_dom. by eexists.
  - intros Hnr. assert (_masks self !! branch = None) as Hnone
      by (apply not_elem_of_dom; tauto).
    rewrite get_mask_unfold, is_execution_branch_batch_oriented_unfold.
    by rewrite consistent_lookup, Hnone.
  - intros Hr. apply Hreg, elem_of_dom in Hr as [mask Hmask].
    rewrite get_mask_unfold, is_execution_branch_batch_oriented_unfold.
    rewrite consistent_lookup, Hmask by done. simpl. eauto.
  - intros ops1 op ops2 Hops <- Hfirst. rewrite get_mask_unfold.
    unfold self. rewrite Hops, after_first_registration; [done| |done].
    simpl. rewrite dom_empty_L. set_solver.
Qed.

Example branching_scenario_cond1 :
  let self :=
    after [RegisterBatchOriented "cond1" {[ [0%nat]; [2%nat] ]}]
          BranchingManager_init in
  (get_mask "cond1" self).1 = inr (BatchSubset {[ [0%nat]; [2%nat] ]}) ∧
  (is_execution_branch_batch_oriented "cond1" self).1 = inr true ∧
  (get_mask "cond2" self).1 = inl (UnknownBranch "cond2") ∧
  (register_non_batch_mask "cond1" false self).1
  = inl (DuplicateRegistration "cond1").
Proof. vm_compute. repeat split. Qed.

(** C9.  On every manager (built from any initial masks and carried through
    any registrations), for a registered branch
    [is_execution_branch_batch_oriented] returns true exactly when the stored
    mask is a BatchSubset, that is when the branch was registered through
    [register_batch_oriented_mask]; and [is_execution_branch_registered]
    never fails: it returns whether the branch is registered and leaves the
    manager as it is. *)
Theorem is_execution_branch_batch_oriented_iff_batch_subset :
  ∀ (masks : gmap string Mask) (ops : list Registration) (branch : string)
    (any : BranchingManager),
    let self := after ops (BranchingManager_new masks) in
    (∀ mask, _masks self !! branch = Some mask →
       (is_execution_branch_batch_oriented branch self).1
       = inr (match mask with BatchSubset _ => true | Scalar _ => false end))
    ∧ (∀ ops1 op ops2,
         ops = (ops1 ++ op :: ops2)%list → registration_branch op = branch →
         branch ∉ dom masks → branch ∉ registration_branch <$> ops1 →
         (is_execution_branch_batch_oriented branch self).1
         = inr (match op with
                | RegisterBatchOriented _ _ => true
                | RegisterNonBatch _ _ => false
                end))
    ∧ (branch ∈ dom (_masks self) ↔
       branch ∈ dom masks ∨ branch ∈ registration_branch <$> ops)
    ∧ is_execution_branch_registered branch any
      = (inr (bool_decide (branch ∈ dom (_masks any))), any).
Proof.
  intros masks ops branch any self.
  assert (consistent self) as Hcons
    by apply consistent_after, consistent_new.
  split; [|split; [|split]].
  - intros mask Hmask. rewrite is_execution_branch_batch_oriented_unfold.
    rewrite consistent_lookup, Hmask by done. simpl. by destruct mask.
  - intros ops1 op ops2 Hops <- Hdom Hfirst.
    rewrite is_execution_branch_batch_oriented_unfold.
    rewrite consistent_lookup by done. unfold self.
    rewrite Hops, after_first_registration by done. simpl. by destruct op.
  - apply after_dom.
  - reflexivity.
Qed.

(** C10.  A registration that fails does so with DuplicateRegistration and
    leaves the manager exactly as it was, so every later query answers as if
    the call had not been made. *)
Theorem failed_registration_is_atomic
    (self : BranchingManager) (op : Registration) (e : Error) :
  (perform op self).1 = inl e →
  e = DuplicateRegistration (registration_branch op) ∧
  (perform op self).2 = self ∧
  ∀ branch,
    get_mask branch (perform op self).2 = get_mask branch self ∧
    is_execution_branch_batch_oriented branch (perform op self).2
    = is_execution_branch_batch_oriented branch self ∧
    is_execution_branch_registered branch (perform op self).2
    = is_execution_branch_registered branch self.
Proof.
  rewrite perform_unfold. destruct (bool_decide _); simpl; [|done].
  intros [= <-]. done.
Qed.

Lemma failed_registration_is_atomic_witness :
  (perform (RegisterBatchOriented "cond1" {[ [0%nat] ]}) registered_cond1).1
  = inl (DuplicateRegistration "cond1") ∧
  DuplicateRegistration "cond1"
  = DuplicateRegistration
      (registration_branch (RegisterBatchOriented "cond1" {[ [0%nat] ]})) ∧
  (perform (RegisterBatchOriented "cond1" {[ [0%nat] ]}) registered_cond1).2
  = registered_cond1 ∧
  ∀ branch,
    get_mask branch
      (perform (RegisterBatchOriented "cond1" {[ [0%nat] ]}) registered_cond1).2
    = get_mask branch registered_cond1 ∧
    is_execution_branch_batch_oriented branch
      (perform (RegisterBatchOriented "cond1" {[ [0%nat] ]}) registered_cond1).2
    = is_execution_branch_batch_oriented branch registered_cond1 ∧
    is_execution_branch_registered branch
      (perform (RegisterBatchOriented "cond1" {[ [0%nat] ]}) registered_cond1).2
    = is_execution_branch_registered branch registered_cond1.
Proof.
  assert ((perform (RegisterBatchOriented "cond1" {[ [0%nat] ]})
             registered_cond1).1
          = inl (DuplicateRegistration "cond1")) as Hfail
    by (vm_compute; reflexivity).
  split; [exact Hfail|].
  exact (failed_registration_is_atomic registered_cond1
           (RegisterBatchOriented "cond1" {[ [0%nat] ]})
           (DuplicateRegistration "cond1") Hfail).
Defined.

(** * Further properties of the code *)

(** ** Shape of the step-flow graph *)

Lemma NoDup_edges_add_node {A} (a : A) (g : DiGraph A) n :
  NoDup (edges g) → NoDup (edges (add_node a g n)).
Proof. by rewrite edges_add_node. Qed.

Lemma NoDup_edges_add_edge {A} (a : A) (g : DiGraph A) u v :
  NoDup (edges g) → NoDup (edges (add_edge a g u v)).
Proof.
  intros Hnd. unfold add_edge.
  set (g' := add_node a (add_node a g u) v).
  assert (NoDup (edges g')) as Hnd' by (by do 2 apply NoDup_edges_add_node).
  destruct (bool_decide_reflect ((u, v) ∈ edges g')) as [Hin|Hnin]; [done|].
  simpl. apply NoDup_app. split; [done|]. split; [|apply NoDup_singleton].
  intros e He He'. apply list_elem_of_singleton in He'. by subst.
Qed.

Lemma NoDup_edges_add_predecessor_edges step_nodes start step_node preds sfg flag :
  NoDup (edges sfg) →
  NoDup (edges (add_predecessor_edges step_nodes start step_node
                  (sfg, flag) preds).1).
Proof.
  revert sfg flag. induction preds as [|p preds IH]; intros sfg flag Hnd; [done|].
  rewrite add_predecessor_edges_cons. by apply IH, NoDup_edges_add_edge.
Qed.

Lemma NoDup_edges_add_successor_edges step_nodes step_node succs sfg :
  NoDup (edges sfg) →
  NoDup (edges (add_successor_edges step_nodes step_node sfg succs)).
Proof.
  revert sfg. induction succs as [|s succs IH]; intros sfg Hnd; [done|].
  simpl. apply IH. destruct (bool_decide _); [|done].
  by apply NoDup_edges_add_edge.
Qed.

Lemma NoDup_edges_visit_step_node eg step_nodes start sfg step_node :
  NoDup (edges sfg) →
  NoDup (edges (visit_step_node eg step_nodes start sfg step_node)).
Proof.
  intros Hnd. unfold visit_step_node.
  pose proof (NoDup_edges_add_predecessor_edges step_nodes start step_node
                (predecessors eg step_node) sfg false Hnd) as Hnd1.
  destruct (add_predecessor_edges _ _ _ _ _) as [sfg1 has_predecessors].
  simpl in Hnd1. apply NoDup_edges_add_successor_edges.
  destruct (negb has_predecessors); [|done]. by apply NoDup_edges_add_edge.
Qed.

Lemma NoDup_edges_foldl_visit eg step_nodes start steps sfg :
  NoDup (edges sfg) →
  NoDup (edges (foldl (visit_step_node eg step_nodes start) sfg steps)).
Proof.
  revert sfg. induction steps as [|s steps IH]; intros sfg Hnd; [done|].
  simpl. by apply IH, NoDup_edges_visit_step_node.
Qed.

(** X1.  The step-flow graph has the synthetic source and the Step nodes as
    its nodes and nothing else, each once; no edge occurs twice, although the
    predecessor loop of a step and the successor loop of its predecessor both
    ask for it; and every edge runs from the source or a Step node to a Step
    node, so Data nodes never enter the graph through an edge. *)
Theorem steps_flow_graph_nodes_and_edges :
  ∀ (g : DiGraph NodeCategory) (start : string),
    NoDup (node_names (construct_steps_flow_graph g start)) ∧
    NoDup (edges (construct_steps_flow_graph g start)) ∧
    (∀ x, x ∈ node_names (construct_steps_flow_graph g start)
          ↔ x = start ∨ is_step g x) ∧
    (∀ u v, has_edge (construct_steps_flow_graph g start) u v →
            (u = start ∨ is_step g u) ∧ is_step g v).
Proof.
  intros g start. split; [apply steps_flow_graph_NoDup|]. split; [|split].
  - unfold construct_steps_flow_graph. apply NoDup_edges_foldl_visit.
    rewrite edges_add_node. constructor.
  - apply steps_flow_graph_node_names.
  - intros u v Huv.
    apply steps_flow_graph_edge_inv in Huv as [Hv [->|(_ & Hu & _)]]; tauto.
Qed.

(** X2.  When the execution graph is acyclic and no Step node carries the
    name of the synthetic source, the step-flow graph is acyclic and the
    source has no incoming edge. *)
Theorem steps_flow_graph_is_dag (g : DiGraph NodeCategory) (start : string) :
  acyclic g → ¬ is_step g start →
  acyclic (construct_steps_flow_graph g start) ∧
  ∀ u, ¬ has_edge (construct_steps_flow_graph g start) u start.
Proof.
  intros Hacyc Hstart. split; [by apply steps_flow_graph_acyclic|].
  intros u Hu. by apply steps_flow_graph_edge_inv in Hu as [? _].
Qed.

Lemma steps_flow_graph_is_dag_witness :
  acyclic scenario_graph ∧ ¬ is_step scenario_graph super_start_node ∧
  acyclic (construct_steps_flow_graph scenario_graph super_start_node) ∧
  ∀ u, ¬ has_edge (construct_steps_flow_graph scenario_graph super_start_node)
                  u super_start_node.
Proof.
  split; [exact scenario_acyclic|]. split; [exact scenario_start_not_step|].
  exact (steps_flow_graph_is_dag scenario_graph super_start_node
           scenario_acyclic scenario_start_not_step).
Defined.

Lemma steps_flow_graph_reaches (g : DiGraph NodeCategory) (start : string) :
  acyclic g → ¬ is_step g start →
  ∀ n s, is_step g s →
         (distance_of (construct_steps_flow_graph g start) start s ≤ n)%nat →
         tc (has_edge (construct_steps_flow_graph g start)) start s.
Proof.
  intros Hacyc Hstart. induction n as [|n IH]; intros s Hs Hd.
  - pose proof (step_distance_pos g start Hacyc Hstart s Hs). lia.
  - destruct (distance_of_attained (construct_steps_flow_graph g start) start s)
      as (u & Hu & Hdu).
    + by apply steps_flow_graph_acyclic.
    + apply steps_flow_graph_edges_closed.
    + by intros ->.
    + destruct (steps_flow_graph_step_has_pred g start s Hs) as [u Hu].
      apply elem_of_predecessors in Hu. intros Hnil. rewrite Hnil in Hu.
      by apply elem_of_nil in Hu.
    + destruct (steps_flow_graph_edge_inv g start u s Hu) as [_ [->|Hus]].
      * by apply tc_once.
      * eapply tc_r; [|exact Hu]. apply IH; [by destruct Hus as (_ & ? & _)|lia].
Qed.

(** X3.  The step-flow graph of an acyclic execution graph has a single
    root: every Step node is reachable from the synthetic source along its
    edges. *)
Theorem steps_flow_graph_rooted (g : DiGraph NodeCategory) (start s : string) :
  acyclic g → ¬ is_step g start → is_step g s →
  tc (has_edge (construct_steps_flow_graph g start)) start s.
Proof.
  intros Hacyc Hstart Hs. by eapply steps_flow_graph_reaches.
Qed.

Lemma steps_flow_graph_rooted_witness :
  acyclic scenario_graph ∧ ¬ is_step scenario_graph super_start_node ∧
  is_step scenario_graph "C" ∧
  tc (has_edge (construct_steps_flow_graph scenario_graph super_start_node))
     super_start_node "C".
Proof.
  assert (is_step scenario_graph "C") as Hc
    by (apply (bool_decide_unpack _); vm_compute; exact I).
  split; [exact scenario_acyclic|]. split; [exact scenario_start_not_step|].
  split; [exact Hc|].
  exact (steps_flow_graph_rooted scenario_graph super_start_node "C"
           scenario_acyclic scenario_start_not_step Hc).
Defined.

(** ** Runs of the coordinator *)

(** X4.  A run hands out steps at most once per pending layer: the call
    number [j] (counting from 0) returns the sentinel as soon as [j] is at
    least the number of layers still ahead of the pointer, whatever was
    discarded.  A caller that loops until the sentinel therefore stops after
    at most that many rounds. *)
Theorem coordinator_run_terminates
    (self : ParallelStepExecutionCoordinator) (calls : list (gset string))
    (j : nat) (rj : option (list string)) (pj : nat) :
  run_calls self calls !! j = Some (rj, pj) →
  (length (layers_of self) - pointer_of self ≤ j)%nat →
  rj = None.
Proof.
  revert self j. induction calls as [|d rest IH]; intros self j Hj Hlen; [done|].
  rewrite run_calls_cons in Hj. destruct j as [|j]; simpl in Hj.
  - injection Hj as <- _.
    apply get_steps_to_execute_next_exhausted. lia.
  - apply (IH _ _ Hj). rewrite get_steps_to_execute_next_layers.
    destruct (get_steps_to_execute_next_forward self d) as [Hle Hsome].
    destruct ((get_steps_to_execute_next self d).1) as [steps|] eqn:Hr.
    + destruct (Hsome steps eq_refl) as [Hlt _]. lia.
    + pose proof (get_steps_to_execute_next_None self d Hr) as Hex.
      rewrite get_steps_to_execute_next_layers in Hex. lia.
Qed.

Lemma coordinator_run_terminates_witness :
  run_calls (coordinator_init scenario_graph) [∅; ∅; ∅] !! 2%nat
  = Some (None, 2%nat) ∧
  (length (layers_of (coordinator_init scenario_graph))
   - pointer_of (coordinator_init scenario_graph) ≤ 2)%nat ∧
  (None : option (list string)) = None.
Proof.
  assert (run_calls (coordinator_init scenario_graph) [∅; ∅; ∅] !! 2%nat
          = Some (None, 2%nat)) as Hrun by (vm_compute; reflexivity).
  assert (length (layers_of (coordinator_init scenario_graph))
          - pointer_of (coordinator_init scenario_graph) ≤ 2)%nat as Hlen
    by (vm_compute; lia).
  split; [exact Hrun|]. split; [exact Hlen|].
  exact (coordinator_run_terminates (coordinator_init scenario_graph)
           [∅; ∅; ∅] 2 None 2 Hrun Hlen).
Defined.

(** A call whose first pending layer has a surviving step returns exactly the
    surviving steps of that layer and moves the pointer by one. *)
Lemma get_steps_to_execute_next_first_layer self d layer :
  layers_of self !! pointer_of self = Some layer →
  filter (λ e, e ∉ _discarded_steps self ∪ d) layer ≠ [] →
  (get_steps_to_execute_next self d).1
  = Some (filter (λ e, e ∉ _discarded_steps self ∪ d) layer) ∧
  pointer_of (get_steps_to_execute_next self d).2 = S (pointer_of self).
Proof.
  intros Hl Hne. pose proof (get_steps_to_execute_next_outcome self d) as Hout.
  unfold loop_outcome in Hout. simpl in Hout.
  rewrite get_steps_to_execute_next_pointer.
  destruct ((get_steps_to_execute_next self d).1) as [steps|].
  - destruct Hout as (k & layer' & Hk & Hl' & Hsteps & _ & Hptr & Hskip).
    destruct (decide (k = pointer_of self)) as [->|Hneq].
    + rewrite Hl in Hl'. injection Hl' as <-. by rewrite Hsteps, Hptr.
    + exfalso. apply Hne, filter_not_discarded_nil.
      apply (Hskip (pointer_of self)); [lia|done].
  - destruct Hout as [_ Hskip]. exfalso. apply Hne, filter_not_discarded_nil.
    apply (Hskip (pointer_of self)); [lia|done].
Qed.

Lemma filter_not_in_empty (D : gset string) (layer : list string) :
  D = ∅ → filter (λ e, e ∉ D ∪ ∅) layer = layer.
Proof.
  intros ->. apply filter_all, Forall_forall. intros e _ He.
  apply elem_of_union in He as [He|He]; by apply not_elem_of_empty in He.
Qed.

(** X5.  With nothing discarded, before or during the run, and no empty
    layer, the calls replay the layering: call number [j] returns the whole
    layer [j] places ahead of the starting pointer, in the layer's order. *)
Theorem coordinator_replays_layers
    (self : ParallelStepExecutionCoordinator) (calls : list (gset string))
    (j : nat) (layer : list string) :
  _discarded_steps self = ∅ →
  (∀ d, d ∈ calls → d = ∅) →
  (∀ l, l ∈ layers_of self → l ≠ []) →
  (j < length calls)%nat →
  layers_of self !! (pointer_of self + j)%nat = Some layer →
  run_calls self calls !! j = Some (Some layer, S (pointer_of self + j)).
Proof.
  revert self j. induction calls as [|d rest IH];
    intros self j HD Hcalls Hlayers Hj Hl; [simpl in Hj; lia|].
  rewrite run_calls_cons.
  assert (d = ∅) as -> by (apply Hcalls; by left).
  assert (∃ l0, layers_of self !! pointer_of self = Some l0) as [l0 Hl0].
  { apply lookup_lt_is_Some_2. apply lookup_lt_Some in Hl. lia. }
  destruct (get_steps_to_execute_next_first_layer self ∅ l0 Hl0) as [Hres Hptr].
  { rewrite (filter_not_in_empty _ _ HD). apply Hlayers.
    by eapply list_elem_of_lookup_2. }
  rewrite (filter_not_in_empty _ _ HD) in Hres.
  destruct j as [|j]; simpl.
  - rewrite Hres, Hptr. rewrite Nat.add_0_r in Hl |- *.
    rewrite Hl0 in Hl. by injection Hl as ->.
  - rewrite (IH _ j).
    + rewrite Hptr. do 3 f_equal. lia.
    + rewrite get_steps_to_execute_next_discarded, HD. set_solver.
    + intros d' Hd'. apply Hcalls. by right.
    + by rewrite get_steps_to_execute_next_layers.
    + simpl in Hj. lia.
    + rewrite get_steps_to_execute_next_layers, Hptr.
      by replace (S (pointer_of self) + j)%nat with (pointer_of self + S j)%nat by lia.
Qed.

Lemma scenario_layers_of :
  layers_of (coordinator_init scenario_graph) = [["A"; "B"]; ["C"]].
Proof. vm_compute. reflexivity. Qed.

Lemma scenario_layers_not_empty :
  ∀ l, l ∈ layers_of (coordinator_init scenario_graph) → l ≠ [].
Proof.
  intros l Hl. rewrite scenario_layers_of in Hl.
  apply elem_of_cons in Hl as [->|Hl]; [discriminate|].
  apply elem_of_cons in Hl as [->|Hl]; [discriminate|].
  apply elem_of_nil in Hl. destruct Hl.
Qed.

Lemma two_empty_calls : ∀ d : gset string, d ∈ [∅; ∅] → d = ∅.
Proof.
  intros d Hd. apply elem_of_cons in Hd as [->|Hd]; [reflexivity|].
  apply elem_of_cons in Hd as [->|Hd]; [reflexivity|].
  apply elem_of_nil in Hd. destruct Hd.
Qed.

Lemma coordinator_replays_layers_witness :
  _discarded_steps (coordinator_init scenario_graph) = ∅ ∧
  (∀ d : gset string, d ∈ [∅; ∅] → d = ∅) ∧
  (∀ l, l ∈ layers_of (coordinator_init scenario_graph) → l ≠ []) ∧
  (1 < length [∅; ∅ : gset string])%nat ∧
  layers_of (coordinator_init scenario_graph)
    !! (pointer_of (coordinator_init scenario_graph) + 1)%nat = Some ["C"] ∧
  run_calls (coordinator_init scenario_graph) [∅; ∅] !! 1%nat
  = Some (Some ["C"], S (pointer_of (coordinator_init scenario_graph) + 1)).
Proof.
  assert (layers_of (coordinator_init scenario_graph)
            !! (pointer_of (coordinator_init scenario_graph) + 1)%nat
          = Some ["C"]) as Hl by (vm_compute; reflexivity).
  assert (1 < length [∅; ∅ : gset string])%nat as Hlen by (simpl; lia).
  split; [reflexivity|]. split; [exact two_empty_calls|].
  split; [exact scenario_layers_not_empty|]. split; [exact Hlen|].
  split; [exact Hl|].
  exact (coordinator_replays_layers (coordinator_init scenario_graph) [∅; ∅]
           1 ["C"] eq_refl two_empty_calls scenario_layers_not_empty Hlen Hl).
Defined.

(** Every step of a layer that one call passes was discarded by then or is
    in the list the call returns. *)
Lemma get_steps_to_execute_next_covers self d k layer e :
  (pointer_of self ≤ k < pointer_of (get_steps_to_execute_next self d).2)%nat →
  layers_of self !! k = Some layer → e ∈ layer →
  e ∈ _discarded_steps self ∪ d ∨
  ∃ steps, (get_steps_to_execute_next self d).1 = Some steps ∧ e ∈ steps.
Proof.
  intros Hk Hl He.
  pose proof (get_steps_to_execute_next_outcome self d) as Hout.
  unfold loop_outcome in Hout. simpl in Hout.
  rewrite get_steps_to_execute_next_pointer in Hk.
  destruct ((get_steps_to_execute_next self d).1) as [steps|].
  - destruct Hout as (k0 & layer0 & Hk0 & Hl0 & Hsteps & _ & Hptr & Hskip).
    destruct (decide (k = k0)) as [->|Hne].
    + rewrite Hl in Hl0. injection Hl0 as <-.
      destruct (decide (e ∈ _discarded_steps self ∪ d)) as [|Hnot]; [by left|].
      right. exists steps. split; [done|]. rewrite Hsteps.
      by apply list_elem_of_filter.
    + left. apply (Hskip k layer); [lia|done|done].
  - destruct Hout as [_ Hskip]. left. apply (Hskip k layer); [lia|done|done].
Qed.

(** X6.  No step is dropped silently: every step of a layer that the pointer
    has passed by the end of call [j] was either in the discard set by then
    (from the start or from the argument of a call up to [j]) or is in the
    list returned by one of the calls up to [j]. *)
Theorem coordinator_drops_no_step
    (self : ParallelStepExecutionCoordinator) (calls : list (gset string))
    (j : nat) (rj : option (list string)) (pj k : nat)
    (layer : list string) (e : string) :
  run_calls self calls !! j = Some (rj, pj) →
  (pointer_of self ≤ k < pj)%nat →
  layers_of self !! k = Some layer → e ∈ layer →
  e ∈ _discarded_steps self ∪ ⋃ (take (S j) calls) ∨
  ∃ i steps pi, (i ≤ j)%nat ∧
                run_calls self calls !! i = Some (Some steps, pi) ∧ e ∈ steps.
Proof.
  revert self j. induction calls as [|d rest IH]; intros self j Hj Hk Hl He;
    [done|].
  rewrite run_calls_cons in Hj |- *.
  destruct (decide (k < pointer_of (get_steps_to_execute_next self d).2)%nat)
    as [Hlt|Hge].
  - destruct (get_steps_to_execute_next_covers self d k layer e) as
      [Hin|(steps & Hr & Hin)]; [lia|done|done| |].
    + left. simpl. apply elem_of_union in Hin as [Hin|Hin];
        apply elem_of_union; [by left|right].
      apply elem_of_union. by left.
    + right. exists 0%nat, steps, (pointer_of (get_steps_to_execute_next self d).2).
      split; [lia|]. split; [|done]. simpl. by rewrite Hr.
  - destruct j as [|j]; simpl in Hj.
    + injection Hj as _ Hp. lia.
    + destruct (IH _ j Hj) as [Hin|(i & steps & pi & Hi & Hrun & Hin)].
      * lia.
      * by rewrite get_steps_to_execute_next_layers.
      * done.
      * left. rewrite get_steps_to_execute_next_discarded in Hin.
        change (take (S (S j)) (d :: rest)) with (d :: take (S j) rest).
        simpl. rewrite !elem_of_union in Hin |- *. tauto.
      * right. exists (S i), steps, pi. split; [lia|]. by split.
Qed.

Lemma coordinator_drops_no_step_witness :
  run_calls (coordinator_init scenario_graph) [{["A"]}; ∅] !! 0%nat
  = Some (Some ["B"], 1%nat) ∧
  (pointer_of (coordinator_init scenario_graph) ≤ 0 < 1)%nat ∧
  layers_of (coordinator_init scenario_graph) !! 0%nat = Some ["A"; "B"] ∧
  "A" ∈ ["A"; "B"] ∧
  ("A" ∈ _discarded_steps (coordinator_init scenario_graph)
         ∪ ⋃ (take 1 [{["A"]}; ∅]) ∨
   ∃ i steps pi, (i ≤ 0)%nat ∧
     run_calls (coordinator_init scenario_graph) [{["A"]}; ∅] !! i
     = Some (Some steps, pi) ∧ "A" ∈ steps).
Proof.
  assert (run_calls (coordinator_init scenario_graph) [{["A"]}; ∅] !! 0%nat
          = Some (Some ["B"], 1%nat)) as Hrun by (vm_compute; reflexivity).
  assert (pointer_of (coordinator_init scenario_graph) ≤ 0 < 1)%nat as Hk
    by (vm_compute; lia).
  assert (layers_of (coordinator_init scenario_graph) !! 0%nat
          = Some ["A"; "B"]) as Hl by (vm_compute; reflexivity).
  assert ("A" ∈ ["A"; "B"]) as HA by (apply elem_of_cons; by left).
  split; [exact Hrun|]. split; [exact Hk|]. split; [exact Hl|].
  split; [exact HA|].
  exact (coordinator_drops_no_step (coordinator_init scenario_graph)
           [{["A"]}; ∅] 0 (Some ["B"]) 1 0 ["A"; "B"] "A" Hrun Hk Hl HA).
Defined.

(** When no name occurs twice in the layering, a name determines its layer. *)
Lemma NoDup_mjoin_lookup (layers : list (list string)) a b la lb e :
  NoDup (mjoin layers) →
  layers !! a = Some la → layers !! b = Some lb → e ∈ la → e ∈ lb → a = b.
Proof.
  revert a b. induction layers as [|l layers IH]; intros a b Hnd Ha Hb Hea Heb;
    [done|].
  simpl in Hnd. apply NoDup_app in Hnd as (_ & Hdisj & Hnd).
  assert (∀ i li, layers !! i = Some li → e ∈ li → e ∈ mjoin layers) as Hin.
  { intros i li Hi Hei. apply list_elem_of_join. exists li.
    split; [done|]. by eapply list_elem_of_lookup_2. }
  destruct a as [|a], b as [|b]; simpl in Ha, Hb.
  - done.
  - injection Ha as <-. exfalso. by eapply Hdisj, Hin.
  - injection Hb as <-. exfalso. by eapply Hdisj, Hin.
  - f_equal. by eapply IH.
Qed.

(** Pointers along a run never go back. *)
Lemma run_calls_pointer_mono self calls i j ri pi rj pj :
  (i ≤ j)%nat →
  run_calls self calls !! i = Some (ri, pi) →
  run_calls self calls !! j = Some (rj, pj) →
  (pi ≤ pj)%nat.
Proof.
  revert self i j. induction calls as [|d rest IH]; intros self i j Hij Hi Hj;
    [done|].
  rewrite run_calls_cons in Hi, Hj.
  destruct i as [|i], j as [|j]; simpl in Hi, Hj; try lia.
  - injection Hi as _ <-. injection Hj as _ <-. lia.
  - injection Hi as _ <-. by destruct (run_calls_forward _ _ _ _ _ Hj) as [? _].
  - eapply (IH _ i j); [lia|exact Hi|exact Hj].
Qed.

(** The layer a returned list comes from. *)
Lemma run_calls_source_layer self calls j steps pj e k layer :
  NoDup (mjoin (layers_of self)) →
  run_calls self calls !! j = Some (Some steps, pj) → e ∈ steps →
  layers_of self !! k = Some layer → e ∈ layer →
  pj = S k.
Proof.
  intros Hnd Hj He Hl Hel.
  destruct (run_calls_forward _ _ _ _ _ Hj) as [_ Hsome].
  destruct (Hsome steps eq_refl) as (Hlt & layer' & Hl' & Hsub).
  assert ((pj - 1)%nat = k) as Heq
    by (eapply NoDup_mjoin_lookup; [exact Hnd|exact Hl'|exact Hl|by apply Hsub|done]).
  lia.
Qed.

(** A call that returns steps leaves the pointer strictly beyond the pointer
    of every earlier call. *)
Lemma run_calls_pointer_strict self calls i j ri pi rj pj :
  (i < j)%nat →
  run_calls self calls !! i = Some (ri, pi) →
  run_calls self calls !! j = Some (rj, pj) →
  is_Some rj → (pi < pj)%nat.
Proof.
  revert self i j. induction calls as [|d rest IH];
    intros self i j Hij Hi Hj Hsome; [done|].
  rewrite run_calls_cons in Hi, Hj.
  destruct j as [|j]; [lia|]. simpl in Hj. destruct i as [|i]; simpl in Hi.
  - injection Hi as _ <-. destruct Hsome as [sj ->].
    destruct (run_calls_forward _ _ _ _ _ Hj) as [_ Hs].
    by destruct (Hs sj eq_refl).
  - eapply (IH _ i j); [lia|exact Hi|exact Hj|done].
Qed.

(** X7.  When the layering holds no name twice, a run hands out no step
    twice: a step returned by one call is in no list returned by a later
    call. *)
Theorem coordinator_returns_no_step_twice
    (self : ParallelStepExecutionCoordinator) (calls : list (gset string))
    (i j : nat) (si sj : list string) (pi pj : nat) (e : string) :
  NoDup (mjoin (layers_of self)) →
  (i < j)%nat →
  run_calls self calls !! i = Some (Some si, pi) →
  run_calls self calls !! j = Some (Some sj, pj) →
  e ∈ si → e ∉ sj.
Proof.
  intros Hnd Hij Hi Hj Hei Hej.
  destruct (run_calls_forward _ _ _ _ _ Hi) as [_ Hsome].
  destruct (Hsome si eq_refl) as (_ & layer & Hl & Hsub).
  pose proof (run_calls_source_layer _ _ _ _ _ _ _ _ Hnd Hi Hei Hl
                (Hsub e Hei)) as Hpi.
  pose proof (run_calls_source_layer _ _ _ _ _ _ _ _ Hnd Hj Hej Hl
                (Hsub e Hei)) as Hpj.
  pose proof (run_calls_pointer_strict self calls i j _ _ _ _ Hij Hi Hj
                ltac:(by eexists)).
  lia.
Qed.

Lemma run_calls_layer_order self calls i j ka kb si sj la lb pi pj a b :
  NoDup (mjoin (layers_of self)) →
  layers_of self !! ka = Some la → a ∈ la →
  layers_of self !! kb = Some lb → b ∈ lb →
  (ka < kb)%nat →
  run_calls self calls !! i = Some (Some si, pi) → a ∈ si →
  run_calls self calls !! j = Some (Some sj, pj) → b ∈ sj →
  (i < j)%nat.
Proof.
  intros Hnd Hla Ha Hlb Hb Hk Hi Hai Hj Hbj.
  pose proof (run_calls_source_layer _ _ _ _ _ _ _ _ Hnd Hi Hai Hla Ha) as Hpi.
  pose proof (run_calls_source_layer _ _ _ _ _ _ _ _ Hnd Hj Hbj Hlb Hb) as Hpj.
  destruct (decide (i < j)%nat) as [|Hge]; [done|exfalso].
  pose proof (run_calls_pointer_mono self calls j i _ _ _ _ ltac:(lia) Hj Hi).
  lia.
Qed.

(** X8.  When the layering holds no name twice, steps come out in layer
    order: a step of an earlier layer that is returned at all is returned by
    a strictly earlier call than any returned step of a later layer. *)
Theorem coordinator_respects_layer_order
    (self : ParallelStepExecutionCoordinator) (calls : list (gset string))
    (i j ka kb : nat) (si sj la lb : list string) (pi pj : nat) (a b : string) :
  NoDup (mjoin (layers_of self)) →
  layers_of self !! ka = Some la → a ∈ la →
  layers_of self !! kb = Some lb → b ∈ lb →
  (ka < kb)%nat →
  run_calls self calls !! i = Some (Some si, pi) → a ∈ si →
  run_calls self calls !! j = Some (Some sj, pj) → b ∈ sj →
  (i < j)%nat.
Proof. apply run_calls_layer_order. Qed.

Lemma scenario_layers_NoDup :
  NoDup (mjoin (layers_of (coordinator_init scenario_graph))).
Proof.
  rewrite scenario_layers_of. apply (bool_decide_unpack _). vm_compute. exact I.
Qed.

Lemma scenario_two_calls :
  run_calls (coordinator_init scenario_graph) [∅; ∅] !! 0%nat
  = Some (Some ["A"; "B"], 1%nat) ∧
  run_calls (coordinator_init scenario_graph) [∅; ∅] !! 1%nat
  = Some (Some ["C"], 2%nat).
Proof. split; vm_compute; reflexivity. Qed.

Lemma coordinator_returns_no_step_twice_witness :
  NoDup (mjoin (layers_of (coordinator_init scenario_graph))) ∧
  (0 < 1)%nat ∧
  run_calls (coordinator_init scenario_graph) [∅; ∅] !! 0%nat
  = Some (Some ["A"; "B"], 1%nat) ∧
  run_calls (coordinator_init scenario_graph) [∅; ∅] !! 1%nat
  = Some (Some ["C"], 2%nat) ∧
  "A" ∈ ["A"; "B"] ∧ "A" ∉ ["C"].
Proof.
  assert ("A" ∈ ["A"; "B"]) as HA by (apply elem_of_cons; by left).
  split; [exact scenario_layers_NoDup|]. split; [lia|].
  split; [exact (proj1 scenario_two_calls)|].
  split; [exact (proj2 scenario_two_calls)|]. split; [exact HA|].
  exact (coordinator_returns_no_step_twice (coordinator_init scenario_graph)
           [∅; ∅] 0 1 ["A"; "B"] ["C"] 1 2 "A" scenario_layers_NoDup
           (Nat.lt_0_1) (proj1 scenario_two_calls) (proj2 scenario_two_calls) HA).
Defined.

Lemma coordinator_respects_layer_order_witness :
  NoDup (mjoin (layers_of (coordinator_init scenario_graph))) ∧
  layers_of (coordinator_init scenario_graph) !! 0%nat = Some ["A"; "B"] ∧
  "A" ∈ ["A"; "B"] ∧
  layers_of (coordinator_init scenario_graph) !! 1%nat = Some ["C"] ∧
  "C" ∈ ["C"] ∧ (0 < 1)%nat ∧
  run_calls (coordinator_init scenario_graph) [∅; ∅] !! 0%nat
  = Some (Some ["A"; "B"], 1%nat) ∧
  run_calls (coordinator_init scenario_graph) [∅; ∅] !! 1%nat
  = Some (Some ["C"], 2%nat) ∧
  (0 < 1)%nat.
Proof.
  assert ("A" ∈ ["A"; "B"]) as HA by (apply elem_of_cons; by left).
  assert ("C" ∈ ["C"]) as HC by (apply elem_of_cons; by left).
  assert (layers_of (coordinator_init scenario_graph) !! 0%nat
          = Some ["A"; "B"]) as H0 by (vm_compute; reflexivity).
  assert (layers_of (coordinator_init scenario_graph) !! 1%nat
          = Some ["C"]) as H1 by (vm_compute; reflexivity).
  split; [exact scenario_layers_NoDup|]. split; [exact H0|].
  split; [exact HA|]. split; [exact H1|]. split; [exact HC|]. split; [lia|].
  split; [exact (proj1 scenario_two_calls)|].
  split; [exact (proj2 scenario_two_calls)|].
  exact (coordinator_respects_layer_order (coordinator_init scenario_graph)
           [∅; ∅] 0 1 0 1 ["A"; "B"] ["C"] ["A"; "B"] ["C"] 1 2 "A" "C"
           scenario_layers_NoDup H0 HA H1 HC Nat.lt_0_1
           (proj1 scenario_two_calls) HA (proj2 scenario_two_calls) HC).
Defined.

(** X9.  End to end: on a coordinator made by [init] from an acyclic
    execution graph, a step is handed out by a strictly earlier call than
    any step that has a direct dependency edge from it, whatever is
    discarded along the way. *)
Theorem coordinator_respects_dependencies
    (g : DiGraph NodeCategory) (calls : list (gset string))
    (a b : string) (i j : nat) (si sj : list string) (pi pj : nat) :
  acyclic g → ¬ is_step g super_start_node →
  is_step g a → is_step g b → has_edge g a b →
  run_calls (coordinator_init g) calls !! i = Some (Some si, pi) → a ∈ si →
  run_calls (coordinator_init g) calls !! j = Some (Some sj, pj) → b ∈ sj →
  (i < j)%nat.
Proof.
  intros Hacyc Hstart Ha Hb Hab Hi Hai Hj Hbj.
  assert (layers_of (coordinator_init g) = establish_execution_order g) as Hl
    by reflexivity.
  pose proof (layering_layer_index g _ Hacyc Hstart a Ha) as Hia.
  pose proof (layering_layer_index g _ Hacyc Hstart b Hb) as Hib.
  apply layer_index_Some in Hia as (la & Hla & Hina).
  apply layer_index_Some in Hib as (lb & Hlb & Hinb).
  pose proof (step_edge_distance g _ Hacyc Hstart a b (conj Hab (conj Ha Hb))).
  pose proof (step_distance_pos g _ Hacyc Hstart a Ha).
  eapply (run_calls_layer_order (coordinator_init g) calls i j);
    [|exact Hla|exact Hina|exact Hlb|exact Hinb| |exact Hi|exact Hai|exact Hj|exact Hbj].
  - exact (proj1 (layering_partition g _ Hstart)).
  - lia.
Qed.

Lemma coordinator_respects_dependencies_witness :
  acyclic scenario_graph ∧ ¬ is_step scenario_graph super_start_node ∧
  is_step scenario_graph "A" ∧ is_step scenario_graph "C" ∧
  has_edge scenario_graph "A" "C" ∧
  run_calls (coordinator_init scenario_graph) [∅; ∅] !! 0%nat
  = Some (Some ["A"; "B"], 1%nat) ∧
  "A" ∈ ["A"; "B"] ∧
  run_calls (coordinator_init scenario_graph) [∅; ∅] !! 1%nat
  = Some (Some ["C"], 2%nat) ∧
  "C" ∈ ["C"] ∧ (0 < 1)%nat.
Proof.
  assert (is_step scenario_graph "A") as Ha
    by (apply (bool_decide_unpack _); vm_compute; exact I).
  assert (is_step scenario_graph "C") as Hc
    by (apply (bool_decide_unpack _); vm_compute; exact I).
  assert (has_edge scenario_graph "A" "C") as Hac
    by (apply (bool_decide_unpack _); vm_compute; exact I).
  assert ("A" ∈ ["A"; "B"]) as HA by (apply elem_of_cons; by left).
  assert ("C" ∈ ["C"]) as HC by (apply elem_of_cons; by left).
  split; [exact scenario_acyclic|]. split; [exact scenario_start_not_step|].
  split; [exact Ha|]. split; [exact Hc|]. split; [exact Hac|].
  split; [exact (proj1 scenario_two_calls)|]. split; [exact HA|].
  split; [exact (proj2 scenario_two_calls)|]. split; [exact HC|].
  exact (coordinator_respects_dependencies scenario_graph [∅; ∅] "A" "C" 0 1
           ["A"; "B"] ["C"] 1 2 scenario_acyclic scenario_start_not_step
           Ha Hc Hac (proj1 scenario_two_calls) HA (proj2 scenario_two_calls) HC).
Defined.

(** ** Registrations of the branching manager *)

Lemma is_execution_branch_registered_unfold branch self :
  is_execution_branch_registered branch self
  = (inr (bool_decide (branch ∈ dom (_masks self))), self).
Proof. reflexivity. Qed.

Lemma perform_masks_other op self branch :
  branch ≠ registration_branch op →
  _masks (perform op self).2 !! branch = _masks self !! branch.
Proof.
  intros Hne. rewrite perform_unfold. destruct (bool_decide _); [done|].
  simpl. by rewrite lookup_insert_ne.
Qed.

Lemma perform_compatibility_other op self branch :
  branch ≠ registration_branch op →
  _batch_compatibility (perform op self).2 !! branch
  = _batch_compatibility self !! branch.
Proof.
  intros Hne. rewrite perform_unfold. destruct (bool_decide _); [done|].
  simpl. by rewrite lookup_insert_ne.
Qed.

(** X10.  A registration call, successful or not, changes nothing for any
    other branch: [get_mask], [is_execution_branch_batch_oriented] and
    [is_execution_branch_registered] answer for it as before. *)
Theorem registration_leaves_other_branches
    (self : BranchingManager) (op : Registration) (branch : string) :
  branch ≠ registration_branch op →
  (get_mask branch (perform op self).2).1 = (get_mask branch self).1 ∧
  (is_execution_branch_batch_oriented branch (perform op self).2).1
  = (is_execution_branch_batch_oriented branch self).1 ∧
  (is_execution_branch_registered branch (perform op self).2).1
  = (is_execution_branch_registered branch self).1.
Proof.
  intros Hne. split; [|split].
  - by rewrite !get_mask_unfold, perform_masks_other.
  - by rewrite !is_execution_branch_batch_oriented_unfold,
         perform_compatibility_other.
  - rewrite !is_execution_branch_registered_unfold. simpl. f_equal.
    apply bool_decide_ext. rewrite perform_dom, elem_of_union, elem_of_singleton.
    tauto.
Qed.

Lemma registration_leaves_other_branches_witness :
  "cond2" ≠ registration_branch (RegisterNonBatch "cond1" true) ∧
  (get_mask "cond2"
     (perform (RegisterNonBatch "cond1" true) registered_cond1).2).1
  = (get_mask "cond2" registered_cond1).1 ∧
  (is_execution_branch_batch_oriented "cond2"
     (perform (RegisterNonBatch "cond1" true) registered_cond1).2).1
  = (is_execution_branch_batch_oriented "cond2" registered_cond1).1 ∧
  (is_execution_branch_registered "cond2"
     (perform (RegisterNonBatch "cond1" true) registered_cond1).2).1
  = (is_execution_branch_registered "cond2" registered_cond1).1.
Proof.
  assert ("cond2" ≠ registration_branch (RegisterNonBatch "cond1" true)) as Hne
    by (simpl; discriminate).
  split; [exact Hne|].
  exact (registration_leaves_other_branches registered_cond1
           (RegisterNonBatch "cond1" true) "cond2" Hne).
Defined.

Lemma perform_compatibility_registered op self branch :
  branch ∈ dom (_masks self) →
  _batch_compatibility (perform op self).2 !! branch
  = _batch_compatibility self !! branch.
Proof.
  intros Hin. rewrite perform_unfold.
  destruct (bool_decide_reflect (registration_branch op ∈ dom (_masks self)))
    as [Hop|Hop]; [done|].
  simpl. rewrite lookup_insert_ne; [done|]. intros Heq. apply Hop.
  by rewrite Heq.
Qed.

Lemma after_compatibility_registered ops self branch :
  branch ∈ dom (_masks self) →
  _batch_compatibility (after ops self) !! branch
  = _batch_compatibility self !! branch.
Proof.
  intros Hin. induction ops as [|op ops IH] using rev_ind; [done|].
  rewrite after_snoc, perform_compatibility_registered; [done|].
  apply after_dom. by left.
Qed.

(** X11.  Registered masks are permanent: once [get_mask] returns a mask for
    a branch, no sequence of further registration calls (for that branch or
    any other) changes what [get_mask] and
    [is_execution_branch_batch_oriented] return for it. *)
Theorem registered_mask_is_permanent
    (self : BranchingManager) (ops : list Registration)
    (branch : string) (mask : Mask) :
  (get_mask branch self).1 = inr mask →
  (get_mask branch (after ops self)).1 = inr mask ∧
  (is_execution_branch_batch_oriented branch (after ops self)).1
  = (is_execution_branch_batch_oriented branch self).1.
Proof.
  rewrite get_mask_unfold. simpl.
  destruct (_masks self !! branch) as [m|] eqn:Hm; [|done].
  intros [= ->]. split.
  - by rewrite get_mask_unfold, (after_lookup_preserved ops self branch mask).
  - rewrite !is_execution_branch_batch_oriented_unfold. simpl.
    rewrite after_compatibility_registered; [done|]. by eapply elem_of_dom_2.
Qed.

Lemma registered_mask_is_permanent_witness :
  (get_mask "cond1" registered_cond1).1 = inr (Scalar true) ∧
  (get_mask "cond1"
     (after [RegisterBatchOriented "cond1" {[ [0%nat] ]};
             RegisterNonBatch "cond2" false] registered_cond1)).1
  = inr (Scalar true) ∧
  (is_execution_branch_batch_oriented "cond1"
     (after [RegisterBatchOriented "cond1" {[ [0%nat] ]};
             RegisterNonBatch "cond2" false] registered_cond1)).1
  = (is_execution_branch_batch_oriented "cond1" registered_cond1).1.
Proof.
  assert ((get_mask "cond1" registered_cond1).1 = inr (Scalar true)) as Hget
    by (vm_compute; reflexivity).
  split; [exact Hget|].
  exact (registered_mask_is_permanent registered_cond1
           [RegisterBatchOriented "cond1" {[ [0%nat] ]};
            RegisterNonBatch "cond2" false] "cond1" (Scalar true) Hget).
Defined.

Lemma perform_registered_other op1 op2 self :
  registration_branch op1 ≠ registration_branch op2 →
  bool_decide (registration_branch op2 ∈ dom (_masks (perform op1 self).2))
  = bool_decide (registration_branch op2 ∈ dom (_masks self)).
Proof.
  intros Hne. apply bool_decide_ext.
  rewrite perform_dom, elem_of_union, elem_of_singleton. split; [|tauto].
  intros [?|Heq]; [done|]. by destruct Hne.
Qed.

(** X12.  Registrations for two different branches commute: made in either
    order they leave the same manager, and each succeeds or fails exactly as
    it would have on its own. *)
Theorem registrations_of_distinct_branches_commute
    (self : BranchingManager) (op1 op2 : Registration) :
  registration_branch op1 ≠ registration_branch op2 →
  (perform op2 (perform op1 self).2).2 = (perform op1 (perform op2 self).2).2 ∧
  (perform op2 (perform op1 self).2).1 = (perform op2 self).1 ∧
  (perform op1 (perform op2 self).2).1 = (perform op1 self).1.
Proof.
  intros Hne.
  pose proof (perform_registered_other op1 op2 self Hne) as H12.
  pose proof (perform_registered_other op2 op1 self (not_eq_sym Hne)) as H21.
  rewrite (perform_unfold op2 (perform op1 self).2),
          (perform_unfold op1 (perform op2 self).2), H12, H21.
  rewrite (perform_unfold op1 self), (perform_unfold op2 self).
  destruct (bool_decide (registration_branch op1 ∈ dom (_masks self))),
           (bool_decide (registration_branch op2 ∈ dom (_masks self)));
    simpl; repeat split; try done.
  f_equal; by apply insert_insert_ne, not_eq_sym.
Qed.

Lemma registrations_of_distinct_branches_commute_witness :
  registration_branch (RegisterNonBatch "cond1" true)
  ≠ registration_branch (RegisterBatchOriented "cond2" {[ [0%nat] ]}) ∧
  (perform (RegisterBatchOriented "cond2" {[ [0%nat] ]})
     (perform (RegisterNonBatch "cond1" true) BranchingManager_init).2).2
  = (perform (RegisterNonBatch "cond1" true)
       (perform (RegisterBatchOriented "cond2" {[ [0%nat] ]})
          BranchingManager_init).2).2 ∧
  (perform (RegisterBatchOriented "cond2" {[ [0%nat] ]})
     (perform (RegisterNonBatch "cond1" true) BranchingManager_init).2).1
  = (perform (RegisterBatchOriented "cond2" {[ [0%nat] ]})
       BranchingManager_init).1 ∧
  (perform (RegisterNonBatch "cond1" true)
     (perform (RegisterBatchOriented "cond2" {[ [0%nat] ]})
        BranchingManager_init).2).1
  = (perform (RegisterNonBatch "cond1" true) BranchingManager_init).1.
Proof.
  assert (registration_branch (RegisterNonBatch "cond1" true)
          ≠ registration_branch (RegisterBatchOriented "cond2" {[ [0%nat] ]}))
    as Hne by (simpl; discriminate).
  split; [exact Hne|].
  exact (registrations_of_distinct_branches_commute BranchingManager_init
           (RegisterNonBatch "cond1" true)
           (RegisterBatchOriented "cond2" {[ [0%nat] ]}) Hne).
Defined.

(** X13.  The two tables of a manager never disagree: on a manager built by
    [__init__] from any masks and carried through any registration calls,
    [_batch_compatibility] and [_masks] have the same branches, so
    [is_execution_branch_registered] answers true exactly when [get_mask]
    succeeds, and [get_mask] succeeds exactly when
    [is_execution_branch_batch_oriented] does. *)
Theorem branching_manager_tables_agree :
  ∀ (masks : gmap string Mask) (ops : list Registration) (branch : string),
    dom (_batch_compatibility (after ops (BranchingManager_new masks)))
    = dom (_masks (after ops (BranchingManager_new masks))) ∧
    ((is_execution_branch_registered branch
        (after ops (BranchingManager_new masks))).1 = inr true
     ↔ ∃ mask, (get_mask branch (after ops (BranchingManager_new masks))).1
               = inr mask) ∧
    ((∃ mask, (get_mask branch (after ops (BranchingManager_new masks))).1
              = inr mask)
     ↔ ∃ b, (is_execution_branch_batch_oriented branch
               (after ops (BranchingManager_new masks))).1 = inr b).
Proof.
  intros masks ops branch.
  set (self := after ops (BranchingManager_new masks)).
  assert (consistent self) as Hcons by apply consistent_after, consistent_new.
  split; [|split].
  - rewrite Hcons. apply dom_fmap_L.
  - rewrite is_execution_branch_registered_unfold, get_mask_unfold. simpl.
    split.
    + intros [= Hin]. apply bool_decide_eq_true, elem_of_dom in Hin as [m Hm].
      rewrite Hm. by exists m.
    + intros [m Hm]. f_equal. apply bool_decide_eq_true, elem_of_dom.
      destruct (_masks self !! branch) as [m'|]; [by exists m'|done].
  - rewrite get_mask_unfold, is_execution_branch_batch_oriented_unfold,
      consistent_lookup by done. simpl.
    destruct (_masks self !! branch) as [m|]; simpl.
    + split; intros _; by eexists.
    + split; intros [? ?]; done.
Qed.
